(** * MOUTH TRAP: a shallow embedding of the game core in [script.js]

    The game keeps its state in the closure variables of one IIFE
    ([mouthY], [pipes], [score], [best], ...).  They are collected here in
    the record [state]; each function of the script that mutates them
    becomes a function [state -> state].  JavaScript numbers are modelled
    as rationals [Q] (the doubles' rounding is not modelled); the best score,
    which comes from [Number(...)] of a stored string, is a JavaScript
    number value [jsnum] that may also be [NaN] or an infinity.
    [Math.random()] is an input: the two draws of [spawnPipe] are passed
    to [update].  [localStorage] holds the value under the key
    ['mouth_trap_best'] ([stored]) and the log of [setItem] calls
    ([writes], newest first).  Rendering ([draw]) only reads the state and
    is left out. *)

From Stdlib Require Import ZArith QArith Qminmax List String Ascii Bool Lia Lqa.
Import ListNotations.
Open Scope Z_scope.

(** ** JavaScript number values *)

Inductive jsnum :=
| JNum (q : Q)
| JNaN
| JPosInf
| JNegInf.

(** [x > b] for a finite [x] and a number value [b]. *)
Definition Qltb (x y : Q) : bool := negb (Qle_bool y x).

Definition js_gt (x : Q) (b : jsnum) : bool :=
  match b with
  | JNum y => Qltb y x
  | JNaN => false
  | JPosInf => false
  | JNegInf => true
  end.

Definition js_neg (v : jsnum) : jsnum :=
  match v with
  | JNum q => JNum (- q)
  | JNaN => JNaN
  | JPosInf => JNegInf
  | JNegInf => JPosInf
  end.

(** [v] is the finite number [q] (up to the equality of rationals). *)
Definition num_is (v : jsnum) (q : Q) : Prop :=
  match v with
  | JNum x => (x == q)%Q
  | _ => False
  end.

(** ** [Number(s)] on a string (ECMAScript StringToNumber)

    Strings are sequences of code units below 256; the white space that
    trimming removes among them is TAB, LF, VT, FF, CR, SPACE and NBSP. *)

Definition is_ws (c : ascii) : bool :=
  match nat_of_ascii c with
  | 9 | 10 | 11 | 12 | 13 | 32 | 160 => true
  | _ => false
  end%nat.

Fixpoint drop_ws (l : list ascii) : list ascii :=
  match l with
  | c :: r => if is_ws c then drop_ws r else l
  | [] => []
  end.

Definition trim (l : list ascii) : list ascii := rev (drop_ws (rev (drop_ws l))).

Definition digit_val (base : Z) (c : ascii) : option Z :=
  let n := Z.of_nat (nat_of_ascii c) in
  let d := if (48 <=? n) && (n <=? 57) then n - 48
           else if (97 <=? n) && (n <=? 102) then n - 87
           else if (65 <=? n) && (n <=? 70) then n - 55
           else 99 in
  if d <? base then Some d else None.

(** Reads the longest prefix of digits in [base]: value, count, rest. *)
Fixpoint take_digits (base acc : Z) (n : nat) (l : list ascii) : Z * nat * list ascii :=
  match l with
  | c :: r =>
      match digit_val base c with
      | Some d => take_digits base (acc * base + d) (S n) r
      | None => (acc, n, l)
      end
  | [] => (acc, n, [])
  end.

Definition read_sign (l : list ascii) : Z * list ascii :=
  match l with
  | "+"%char :: r => (1, r)
  | "-"%char :: r => (-1, r)
  | _ => (1, l)
  end.

(** ExponentPart, which must end the literal. *)
Definition parse_exponent (l : list ascii) : option Z :=
  match l with
  | [] => Some 0
  | c :: r =>
      if (c =? "e")%char || (c =? "E")%char then
        let '(sg, r') := read_sign r in
        let '(v, n, rest) := take_digits 10 0 0 r' in
        match n, rest with
        | S _, [] => Some (sg * v)
        | _, _ => None
        end
      else None
  end.

(** StrUnsignedDecimalLiteral. *)
Definition parse_unsigned (l : list ascii) : option jsnum :=
  if String.eqb (string_of_list_ascii l) "Infinity" then Some JPosInf else
  let '(iv, ni, r1) := take_digits 10 0 0 l in
  match r1 with
  | "."%char :: r2 =>
      let '(fv, nf, r3) := take_digits 10 0 0 r2 in
      match (ni + nf)%nat with
      | O => None
      | S _ =>
          match parse_exponent r3 with
          | Some e => Some (JNum ((inject_Z iv + inject_Z fv / inject_Z (10 ^ Z.of_nat nf))
                                  * Qpower (inject_Z 10) e)%Q)
          | None => None
          end
      end
  | _ =>
      match ni with
      | O => None
      | S _ =>
          match parse_exponent r1 with
          | Some e => Some (JNum (inject_Z iv * Qpower (inject_Z 10) e)%Q)
          | None => None
          end
      end
  end.

(** StrDecimalLiteral: an optional sign, then an unsigned literal. *)
Definition parse_decimal (l : list ascii) : option jsnum :=
  match l with
  | "+"%char :: r => parse_unsigned r
  | "-"%char :: r => option_map js_neg (parse_unsigned r)
  | _ => parse_unsigned l
  end.

Definition prefix_base (c : ascii) : option Z :=
  if (c =? "x")%char || (c =? "X")%char then Some 16
  else if (c =? "o")%char || (c =? "O")%char then Some 8
  else if (c =? "b")%char || (c =? "B")%char then Some 2
  else None.

(** StrNumericLiteral: a [0x]/[0o]/[0b] integer or a decimal literal. *)
Definition parse_numeric (l : list ascii) : option jsnum :=
  match l with
  | "0"%char :: c :: r =>
      match prefix_base c with
      | Some base =>
          match take_digits base 0 0 r with
          | (v, S _, []) => Some (JNum (inject_Z v))
          | _ => None
          end
      | None => parse_decimal l
      end
  | _ => parse_decimal l
  end.

Definition Number_of_string (s : string) : jsnum :=
  match trim (list_ascii_of_string s) with
  | [] => JNum 0
  | t => match parse_numeric t with
         | Some v => v
         | None => JNaN
         end
  end.

(** [Number(localStorage.getItem('mouth_trap_best') || 0)]: [getItem]
    returns [null] for a missing key; [null] and [""] are falsy, so both
    become the number [0]. *)
Definition read_best (item : option string) : jsnum :=
  match item with
  | None => JNum 0
  | Some s => if String.eqb s "" then JNum 0 else Number_of_string s
  end.

(** ** [String(n)] on an integer number *)

(** Decimal digits, least significant first; [fuel] bounds the count. *)
Fixpoint le_digits (fuel : nat) (n : Z) : list Z :=
  match fuel with
  | O => []
  | S f => if n <? 10 then [n] else n mod 10 :: le_digits f (n / 10)
  end.

Definition digits_of (n : Z) : list Z := le_digits (S (Z.to_nat (Z.log2 n))) n.

Definition digit_char (d : Z) : ascii := ascii_of_nat (48 + Z.to_nat d).

Fixpoint drop_zeros (l : list Z) : list Z :=
  match l with
  | 0 :: r => drop_zeros r
  | _ => l
  end.

(** At and above 1e21, [String] uses the exponent form [d.ddde+k]. *)
Definition exp_form (n : Z) : list ascii :=
  let k := List.length (digits_of n) in
  match rev (drop_zeros (digits_of n)) with
  | d1 :: rest =>
      digit_char d1
        :: (match rest with [] => [] | _ => "."%char :: map digit_char rest end)
        ++ ["e"%char; "+"%char] ++ map digit_char (rev (digits_of (Z.of_nat k - 1)))
  | [] => []
  end.

Definition js_String_of_Z (n : Z) : string :=
  string_of_list_ascii
    ((if n <? 0 then ["-"%char] else [])
       ++ (if Z.abs n <? 10 ^ 21 then map digit_char (rev (digits_of (Z.abs n)))
           else exp_form (Z.abs n))).

(** ** Game constants *)

Definition GRAVITY : Q := 45 # 100.
Definition FLAP_STRENGTH : Q := - (75 # 10).
Definition PIPE_GAP_MIN : Q := 140.
Definition PIPE_GAP_MAX : Q := 200.
Definition PIPE_WIDTH : Q := 70.
Definition PIPE_INTERVAL_MS : Q := 1400.
Definition SCROLL_SPEED : Q := 26 # 10.
Definition MOUTH_SIZE : Q := 32.
Definition GROUND_HEIGHT : Q := 80.

(** ** Rectangle test [rectsOverlap] *)

Definition rectsOverlap (ax ay aw ah bx by_ bw bh : Q) : bool :=
  Qltb ax (bx + bw) && Qltb bx (ax + aw) && Qltb ay (by_ + bh) && Qltb by_ (ay + ah).

(** ** Game state *)

(** One teeth obstacle, the object pushed by [spawnPipe]. *)
Record pipe := mkPipe {
  px : Q;          (* x *)
  pwidth : Q;      (* width *)
  topHeight : Q;
  gap : Q;
  passed : bool
}.

Definition set_px (v : Q) (p : pipe) : pipe :=
  {| px := v; pwidth := pwidth p; topHeight := topHeight p; gap := gap p; passed := passed p |}.

Definition set_passed (v : bool) (p : pipe) : pipe :=
  {| px := px p; pwidth := pwidth p; topHeight := topHeight p; gap := gap p; passed := v |}.

(** [cw] and [ch] are [canvas.width] and [canvas.height]; [resizeCanvas]
    runs before anything else and makes the width at least 320. *)
Record state := mkState {
  cw : positive;
  ch : Z;
  mouthY : Q;
  mouthX : Q;
  mouthVelY : Q;
  pipes : list pipe;
  lastPipeAt : Q;
  score : Z;
  best : jsnum;
  isRunning : bool;
  isGameOver : bool;
  lastTimestamp : Q;
  backgroundOffset : Q;
  stored : option string;
  writes : list string
}.

Definition set_mouthY (v : Q) (s : state) : state :=
  {| cw := cw s; ch := ch s; mouthY := v; mouthX := mouthX s;
     mouthVelY := mouthVelY s; pipes := pipes s; lastPipeAt := lastPipeAt s; score := score s;
     best := best s; isRunning := isRunning s; isGameOver := isGameOver s; lastTimestamp := lastTimestamp s;
     backgroundOffset := backgroundOffset s; stored := stored s; writes := writes s |}.

Definition set_mouthX (v : Q) (s : state) : state :=
  {| cw := cw s; ch := ch s; mouthY := mouthY s; mouthX := v;
     mouthVelY := mouthVelY s; pipes := pipes s; lastPipeAt := lastPipeAt s; score := score s;
     best := best s; isRunning := isRunning s; isGameOver := isGameOver s; lastTimestamp := lastTimestamp s;
     backgroundOffset := backgroundOffset s; stored := stored s; writes := writes s |}.

Definition set_mouthVelY (v : Q) (s : state) : state :=
  {| cw := cw s; ch := ch s; mouthY := mouthY s; mouthX := mouthX s;
     mouthVelY := v; pipes := pipes s; lastPipeAt := lastPipeAt s; score := score s;
     best := best s; isRunning := isRunning s; isGameOver := isGameOver s; lastTimestamp := lastTimestamp s;
     backgroundOffset := backgroundOffset s; stored := stored s; writes := writes s |}.

Definition set_pipes (v : list pipe) (s : state) : state :=
  {| cw := cw s; ch := ch s; mouthY := mouthY s; mouthX := mouthX s;
     mouthVelY := mouthVelY s; pipes := v; lastPipeAt := lastPipeAt s; score := score s;
     best := best s; isRunning := isRunning s; isGameOver := isGameOver s; lastTimestamp := lastTimestamp s;
     backgroundOffset := backgroundOffset s; stored := stored s; writes := writes s |}.

Definition set_lastPipeAt (v : Q) (s : state) : state :=
  {| cw := cw s; ch := ch s; mouthY := mouthY s; mouthX := mouthX s;
     mouthVelY := mouthVelY s; pipes := pipes s; lastPipeAt := v; score := score s;
     best := best s; isRunning := isRunning s; isGameOver := isGameOver s; lastTimestamp := lastTimestamp s;
     backgroundOffset := backgroundOffset s; stored := stored s; writes := writes s |}.

Definition set_score (v : Z) (s : state) : state :=
  {| cw := cw s; ch := ch s; mouthY := mouthY s; mouthX := mouthX s;
     mouthVelY := mouthVelY s; pipes := pipes s; lastPipeAt := lastPipeAt s; score := v;
     best := best s; isRunning := isRunning s; isGameOver := isGameOver s; lastTimestamp := lastTimestamp s;
     backgroundOffset := backgroundOffset s; stored := stored s; writes := writes s |}.

Definition set_best (v : jsnum) (s : state) : state :=
  {| cw := cw s; ch := ch s; mouthY := mouthY s; mouthX := mouthX s;
     mouthVelY := mouthVelY s; pipes := pipes s; lastPipeAt := lastPipeAt s; score := score s;
     best := v; isRunning := isRunning s; isGameOver := isGameOver s; lastTimestamp := lastTimestamp s;
     backgroundOffset := backgroundOffset s; stored := stored s; writes := writes s |}.

Definition set_isRunning (v : bool) (s : state) : state :=
  {| cw := cw s; ch := ch s; mouthY := mouthY s; mouthX := mouthX s;
     mouthVelY := mouthVelY s; pipes := pipes s; lastPipeAt := lastPipeAt s; score := score s;
     best := best s; isRunning := v; isGameOver := isGameOver s; lastTimestamp := lastTimestamp s;
     backgroundOffset := backgroundOffset s; stored := stored s; writes := writes s |}.

Definition set_isGameOver (v : bool) (s : state) : state :=
  {| cw := cw s; ch := ch s; mouthY := mouthY s; mouthX := mouthX s;
     mouthVelY := mouthVelY s; pipes := pipes s; lastPipeAt := lastPipeAt s; score := score s;
     best := best s; isRunning := isRunning s; isGameOver := v; lastTimestamp := lastTimestamp s;
     backgroundOffset := backgroundOffset s; stored := stored s; writes := writes s |}.

Definition set_lastTimestamp (v : Q) (s : state) : state :=
  {| cw := cw s; ch := ch s; mouthY := mouthY s; mouthX := mouthX s;
     mouthVelY := mouthVelY s; pipes := pipes s; lastPipeAt := lastPipeAt s; score := score s;
     best := best s; isRunning := isRunning s; isGameOver := isGameOver s; lastTimestamp := v;
     backgroundOffset := backgroundOffset s; stored := stored s; writes := writes s |}.

Definition set_backgroundOffset (v : Q) (s : state) : state :=
  {| cw := cw s; ch := ch s; mouthY := mouthY s; mouthX := mouthX s;
     mouthVelY := mouthVelY s; pipes := pipes s; lastPipeAt := lastPipeAt s; score := score s;
     best := best s; isRunning := isRunning s; isGameOver := isGameOver s; lastTimestamp := lastTimestamp s;
     backgroundOffset := v; stored := stored s; writes := writes s |}.

Definition setItem (v : string) (s : state) : state :=
  {| cw := cw s; ch := ch s; mouthY := mouthY s; mouthX := mouthX s;
     mouthVelY := mouthVelY s; pipes := pipes s; lastPipeAt := lastPipeAt s; score := score s;
     best := best s; isRunning := isRunning s; isGameOver := isGameOver s; lastTimestamp := lastTimestamp s;
     backgroundOffset := backgroundOffset s; stored := Some v; writes := v :: writes s |}.

(** The state right after the script's top level has run, for a canvas of
    [w] by [h] and the stored best [item]. *)
Definition init_state (w : positive) (h : Z) (item : option string) : state :=
  {| cw := w; ch := h; mouthY := inject_Z h / 2; mouthX := inject_Z (Zpos w) * (28 # 100);
     mouthVelY := 0; pipes := []; lastPipeAt := 0; score := 0;
     best := read_best item; isRunning := false; isGameOver := false; lastTimestamp := 0;
     backgroundOffset := 0; stored := item; writes := [] |}.

(** ** [resetGame] *)
Definition resetGame (s : state) : state :=
  let s := set_mouthY (inject_Z (ch s) / 2) s in
  let s := set_mouthX (inject_Z (Zpos (cw s)) * (28 # 100)) s in
  let s := set_mouthVelY 0 s in
  let s := set_pipes [] s in
  let s := set_lastPipeAt 0 s in
  let s := set_score 0 s in
  let s := set_isGameOver false s in
  set_backgroundOffset 0 s.

(** ** [flap], at time [now] ([performance.now()]); the scheduling of
    [gameLoop] by [requestAnimationFrame] belongs to the host. *)
Definition flap (now : Q) (s : state) : state :=
  let s := if negb (isRunning s) then set_lastTimestamp now (set_isRunning true s) else s in
  if isGameOver s then resetGame s
  else set_mouthVelY FLAP_STRENGTH s.

(** ** [spawnPipe], with [r1] and [r2] the two results of [Math.random()] *)
Definition spawnPipe (r1 r2 : Q) (s : state) : state :=
  let gap := (PIPE_GAP_MIN + r1 * (PIPE_GAP_MAX - PIPE_GAP_MIN))%Q in
  let topLimit := 40%Q in
  let bottomLimit := (inject_Z (ch s) - GROUND_HEIGHT - 40 - gap)%Q in
  let topHeight := (topLimit + r2 * (bottomLimit - topLimit))%Q in
  let x := (inject_Z (Zpos (cw s)) + PIPE_WIDTH)%Q in
  set_pipes (pipes s ++ [{| px := x; pwidth := PIPE_WIDTH; topHeight := topHeight;
                            gap := gap; passed := false |}]) s.

(** ** [update] *)

(** The number operator [%] on a positive divisor: the remainder has the
    sign of the dividend. *)
Definition js_rem (x : Q) (w : positive) : Q :=
  let r := (x / inject_Z (Zpos w))%Q in
  (x - inject_Z (Zpos w) * inject_Z (Z.quot (Qnum r) (Zpos (Qden r))))%Q.

(** Physics, then the ground and the ceiling. *)
Definition update_physics (s : state) : state :=
  let vel := (mouthVelY s + GRAVITY)%Q in
  let y := (mouthY s + vel)%Q in
  let '(y, vel) := if Qltb y 0 then (0%Q, 0%Q) else (y, vel) in
  let groundY := (inject_Z (ch s) - GROUND_HEIGHT - MOUTH_SIZE)%Q in
  let s := set_mouthVelY vel s in
  if Qltb groundY y then set_isGameOver true (set_mouthY groundY s)
  else set_mouthY y s.

(** Scoring when the mouth passes the centre of [p]. *)
Definition score_pipe (p : pipe) (s : state) : pipe * state :=
  let mouthCenter := (mouthX s + MOUTH_SIZE / 2)%Q in
  let pipeCenter := (px p + pwidth p / 2)%Q in
  if negb (passed p) && Qltb pipeCenter mouthCenter then
    let s := set_score (score s + 1) s in
    let s := if js_gt (inject_Z (score s)) (best s)
             then let s := set_best (JNum (inject_Z (score s))) s in
                  setItem (js_String_of_Z (score s)) s
             else s in
    (set_passed true p, s)
  else (p, s).

(** Collision of the mouth with the top and the bottom teeth of [p]. *)
Definition collide (p : pipe) (s : state) : state :=
  let mouthTop := mouthY s in
  let topRectCollide :=
    rectsOverlap (mouthX s) mouthTop MOUTH_SIZE MOUTH_SIZE (px p) 0 (pwidth p) (topHeight p) in
  let bottomRectCollide :=
    rectsOverlap (mouthX s) mouthTop MOUTH_SIZE MOUTH_SIZE
      (px p) (topHeight p + gap p) (pwidth p)
      (inject_Z (ch s) - GROUND_HEIGHT - (topHeight p + gap p)) in
  if topRectCollide || bottomRectCollide then set_isGameOver true s else s.

(** The loop [for (let i = pipes.length - 1; i >= 0; i--)]: the element
    at index [i] is handled after every element at a larger index, and
    [pipes.splice(i, 1)] leaves the elements below [i] in place.  On
    [p :: rest], [rest] is therefore processed first; the pipes kept come
    back in their original order. *)
Fixpoint pipes_loop (ps : list pipe) (s : state) : list pipe * state :=
  match ps with
  | [] => ([], s)
  | p :: rest =>
      let '(rest', s) := pipes_loop rest s in
      let p := set_px (px p - SCROLL_SPEED)%Q p in
      if Qltb (px p + pwidth p) (-10) then (rest', s)
      else
        let '(p, s) := score_pipe p s in
        (p :: rest', collide p s)
  end.

Definition update_pipes (s : state) : state :=
  let s := set_backgroundOffset (js_rem (backgroundOffset s + SCROLL_SPEED) (cw s)) s in
  let '(ps, s) := pipes_loop (pipes s) s in
  set_pipes ps s.

Definition update_spawn (dt : Q) (rnd : Q * Q) (s : state) : state :=
  let s := set_lastPipeAt (lastPipeAt s + dt)%Q s in
  if Qltb PIPE_INTERVAL_MS (lastPipeAt s) then set_lastPipeAt 0 (spawnPipe (fst rnd) (snd rnd) s)
  else s.

Definition update (dt : Q) (rnd : Q * Q) (s : state) : state :=
  if isGameOver s then s
  else update_spawn dt rnd (update_pipes (update_physics s)).

(** ** [gameLoop] at the frame time [timestamp]; [draw] only reads. *)
Definition gameLoop (timestamp : Q) (rnd : Q * Q) (s : state) : state :=
  let dt := Qmin 50 (timestamp - lastTimestamp s) in
  let s := set_lastTimestamp timestamp s in
  update dt rnd s.

(** A sequence of ticks, each with its [dt] and random draws. *)
Fixpoint run_ticks (ts : list (Q * (Q * Q))) (s : state) : state :=
  match ts with
  | [] => s
  | (dt, rnd) :: ts => run_ticks ts (update dt rnd s)
  end.

(** The operations of the game on the state; the window's [resize]
    handler, which changes [cw] and [ch], is [resize_state] below. *)
Inductive op :=
| Tick (dt : Q) (rnd : Q * Q)
| Frame (timestamp : Q) (rnd : Q * Q)
| Flap (now : Q)
| Reset.

Definition step (o : op) (s : state) : state :=
  match o with
  | Tick dt rnd => update dt rnd s
  | Frame t rnd => gameLoop t rnd s
  | Flap now => flap now s
  | Reset => resetGame s
  end.


(** ** Notions used in the statements below *)

(** An obstacle advanced by one tick, whether it survives that tick, and
    whether its centre is then left of the centre of a mouth at [mx]. *)
Definition advance (p : pipe) : pipe := set_px (px p - SCROLL_SPEED)%Q p.

Definition kept (p : pipe) : bool :=
  negb (Qltb (px (advance p) + pwidth (advance p)) (-10)).

Definition crosses (mx : Q) (p : pipe) : bool :=
  Qltb (px (advance p) + pwidth (advance p) / 2) (mx + MOUTH_SIZE / 2).

Definition newly_passed (mx : Q) (p : pipe) : bool := negb (passed p) && crosses mx p.

Definition after_tick (mx : Q) (p : pipe) : pipe :=
  set_passed (passed p || crosses mx p) (advance p).

(** The fields that scoring and collision leave alone. *)
Definition same_frame (s s' : state) : Prop :=
  cw s' = cw s /\ ch s' = ch s /\ mouthY s' = mouthY s /\ mouthX s' = mouthX s /\
  mouthVelY s' = mouthVelY s /\ pipes s' = pipes s /\ lastPipeAt s' = lastPipeAt s /\
  isRunning s' = isRunning s /\ lastTimestamp s' = lastTimestamp s /\
  backgroundOffset s' = backgroundOffset s.

(** An obstacle at x = 0, width 70, with the canvas 500 by 750 and the
    mouth out of its reach, scrolled by ticks of 16 ms. *)
Definition scroll_state : state :=
  set_pipes [mkPipe 0 70 100 150 true] (init_state 500 750 None).

Definition tick16 : Q * (Q * Q) := (16%Q, (0%Q, 0%Q)).

(** [b] is [a] or a finite number above it. *)
Definition js_le (a b : jsnum) : Prop := a = b \/ exists y, b = JNum y /\ js_gt y a = true.

(** The best score [c] is the maximum of [b0] and the score, and the
    writes since [s0] are none exactly while the score is at most [b0]. *)
Definition best_tracks (b0 : Q) (s0 s : state) : Prop :=
  (exists c, best s = JNum c /\ (c == Qmax b0 (inject_Z (score s)))%Q) /\
  (exists nw, writes s = nw ++ writes s0 /\ (nw = [] <-> (inject_Z (score s) <= b0)%Q)).

(** A startup with the stored best "-1". *)
Definition negative_best_start : state := init_state 500 750 (Some "-1"%string).

Definition is_digit (d : Z) : Prop := 0 <= d <= 9.

Ltac digit_cases d :=
  let H := fresh in
  assert (H : d = 0 \/ d = 1 \/ d = 2 \/ d = 3 \/ d = 4 \/ d = 5 \/ d = 6 \/ d = 7 \/ d = 8 \/ d = 9)
    by (unfold is_digit in *; lia);
  repeat (destruct H as [H | H]; [subst d | ]); [..| subst d].

Definition dec_value (ds : list Z) : Z := fold_left (fun a d => a * 10 + d) ds 0.


(** ** Canvas sizing: [resizeCanvas]

    [window.innerWidth] and [window.innerHeight] are non-negative integers,
    so [Math.floor] leaves the width as it is and [(3 / 2) * w] is exact;
    its floor is [(3 * w) / 2]. *)
Record canvases := mkCanvases {
  gameW : Z;   (* canvas.width *)
  gameH : Z;   (* canvas.height *)
  landW : Z;   (* landingCanvas.width *)
  landH : Z    (* landingCanvas.height *)
}.

Definition resizeCanvas (innerWidth innerHeight : Z) (c : canvases) : canvases :=
  let desiredWidth := Z.max 320 innerWidth in
  let desiredHeightByAspect := (3 * desiredWidth) / 2 in
  let maxHeight := innerHeight in
  let desiredHeight := Z.min desiredHeightByAspect maxHeight in
  let c := if negb (gameW c =? desiredWidth) || negb (gameH c =? desiredHeight)
           then {| gameW := desiredWidth; gameH := desiredHeight; landW := landW c; landH := landH c |}
           else c in
  if negb (landW c =? desiredWidth) || negb (landH c =? desiredHeight)
  then {| gameW := gameW c; gameH := gameH c; landW := desiredWidth; landH := desiredHeight |}
  else c.

(** ** Background texture loading: [loadBackgroundTexture]

    [src_sets] counts the assignments to [img.src], each of which starts
    a load; [loader_onerror] is the [onerror] handler. *)
Record bg_loader := mkLoader {
  src : string;
  triedJpg : bool;
  src_sets : nat
}.

Definition loader_start : bg_loader :=
  {| src := "backgroundtexture.png"; triedJpg := false; src_sets := 1 |}.

Definition loader_onerror (l : bg_loader) : bg_loader :=
  if negb (triedJpg l)
  then {| src := "backgroundtexture.jpg"; triedJpg := true; src_sets := S (src_sets l) |}
  else l.

(** ** Notions for the further properties *)

(** The collision test of [collide] for a mouth at ([mx], [my]) on a
    canvas of height [h]. *)
Definition hits (mx my h : Q) (p : pipe) : bool :=
  rectsOverlap mx my MOUTH_SIZE MOUTH_SIZE (px p) 0 (pwidth p) (topHeight p)
  || rectsOverlap mx my MOUTH_SIZE MOUTH_SIZE (px p) (topHeight p + gap p) (pwidth p)
       (h - GROUND_HEIGHT - (topHeight p + gap p)).

Fixpoint run_ops (os : list op) (s : state) : state :=
  match os with
  | [] => s
  | o :: os => run_ops os (step o s)
  end.

(** Every obstacle has the width 70 and its x lies in
    [-80, canvas.width + 70]. *)
Definition pipes_ok (s : state) : Prop :=
  Forall (fun p => pwidth p = PIPE_WIDTH /\ (-80 <= px p <= inject_Z (Zpos (cw s)) + 70)%Q) (pipes s).

(** Nothing has been written yet, or storage holds [String(z)] of the
    best score [z]. *)
Definition persisted (s : state) : Prop :=
  writes s = [] \/
  exists z, stored s = Some (js_String_of_Z z) /\ best s = JNum (inject_Z z).


(** Whether an operation is a flap (key, mouse or touch input). *)
Definition is_flap (o : op) : bool :=
  match o with
  | Flap _ => true
  | _ => false
  end.

(** The window's [resize] listener: [resizeCanvas] sets [canvas.width]
    and [canvas.height] ([cw], [ch]); the redraw only reads.  The result
    of [resizeCanvas] does not depend on the landing canvas. *)
Definition resize_state (innerWidth innerHeight : Z) (s : state) : state :=
  let c := resizeCanvas innerWidth innerHeight (mkCanvases (Zpos (cw s)) (ch s) (Zpos (cw s)) (ch s)) in
  {| cw := Z.to_pos (gameW c); ch := gameH c; mouthY := mouthY s; mouthX := mouthX s;
     mouthVelY := mouthVelY s; pipes := pipes s; lastPipeAt := lastPipeAt s; score := score s;
     best := best s; isRunning := isRunning s; isGameOver := isGameOver s;
     lastTimestamp := lastTimestamp s; backgroundOffset := backgroundOffset s;
     stored := stored s; writes := writes s |}.

(** Game operations and window resizes. *)
Inductive event :=
| Op (o : op)
| Resize (innerWidth innerHeight : Z).

Definition step_event (e : event) (s : state) : state :=
  match e with
  | Op o => step o s
  | Resize iw ih => resize_state iw ih s
  end.

Fixpoint run_events (es : list event) (s : state) : state :=
  match es with
  | [] => s
  | e :: es => run_events es (step_event e s)
  end.

(** * Properties *)

Lemma Qltb_spec (x y : Q) : Qltb x y = true <-> (x < y)%Q.
Proof.
  unfold Qltb. rewrite negb_true_iff. split; intro H.
  - apply Qnot_le_lt. intro H'. apply Qle_bool_iff in H'. congruence.
  - destruct (Qle_bool y x) eqn:E; [|reflexivity].
    apply Qle_bool_iff in E. exfalso. exact (Qlt_not_le _ _ H E).
Qed.

Lemma Qltb_false (x y : Q) : Qltb x y = false <-> (y <= x)%Q.
Proof.
  unfold Qltb. rewrite negb_false_iff. apply Qle_bool_iff.
Qed.

(** ** Collision test *)

(** C9: [rectsOverlap] is symmetric in its two rectangles. *)
Theorem rectsOverlap_symmetric (ax ay aw ah bx by_ bw bh : Q) :
  rectsOverlap ax ay aw ah bx by_ bw bh = rectsOverlap bx by_ bw bh ax ay aw ah.
Proof.
  unfold rectsOverlap.
  destruct (Qltb ax (bx + bw)), (Qltb bx (ax + aw)), (Qltb ay (by_ + bh)), (Qltb by_ (ay + ah));
    reflexivity.
Qed.

(** C6: for boxes of positive width and height, [rectsOverlap] holds iff
    the boxes overlap by a positive length on both axes (the largest left
    edge lies strictly left of the smallest right edge, and likewise
    vertically); boxes that only touch along an edge never overlap. *)
Theorem rectsOverlap_strict (ax ay aw ah bx by_ bw bh : Q) :
  (0 < aw)%Q -> (0 < ah)%Q -> (0 < bw)%Q -> (0 < bh)%Q ->
  (rectsOverlap ax ay aw ah bx by_ bw bh = true <->
     (Qmax ax bx < Qmin (ax + aw) (bx + bw))%Q /\ (Qmax ay by_ < Qmin (ay + ah) (by_ + bh))%Q) /\
  ((ax + aw == bx)%Q -> rectsOverlap ax ay aw ah bx by_ bw bh = false) /\
  ((bx + bw == ax)%Q -> rectsOverlap ax ay aw ah bx by_ bw bh = false) /\
  ((ay + ah == by_)%Q -> rectsOverlap ax ay aw ah bx by_ bw bh = false) /\
  ((by_ + bh == ay)%Q -> rectsOverlap ax ay aw ah bx by_ bw bh = false).
Proof.
  intros Haw Hah Hbw Hbh. unfold rectsOverlap.
  rewrite !Q.max_lub_lt_iff, !Q.min_glb_lt_iff.
  split; [split|].
  - intro H. rewrite !andb_true_iff, !Qltb_spec in H. lra.
  - intro H. rewrite !andb_true_iff, !Qltb_spec. lra.
  - split; [|split; [|split]]; intro E.
    + rewrite (proj2 (Qltb_false bx (ax + aw))) by lra.
      now rewrite andb_false_r, !andb_false_l.
    + rewrite (proj2 (Qltb_false ax (bx + bw))) by lra. reflexivity.
    + rewrite (proj2 (Qltb_false by_ (ay + ah))) by lra. now rewrite andb_false_r.
    + rewrite (proj2 (Qltb_false ay (by_ + bh))) by lra.
      now rewrite andb_false_r, andb_false_l.
Qed.

Lemma rectsOverlap_strict_witness :
  (0 < 2)%Q /\ (0 < 2)%Q /\ (0 < 3)%Q /\ (0 < 3)%Q /\
  rectsOverlap 0 0 2 2 1 1 3 3 = true.
Proof.
  split; [lra|]. split; [lra|]. split; [lra|]. split; [lra|].
  apply (proj2 (proj1 (rectsOverlap_strict 0 0 2 2 1 1 3 3 ltac:(lra) ltac:(lra) ltac:(lra) ltac:(lra)))).
  vm_compute. split; reflexivity.
Defined.

(** ** Frozen world after game over *)

(** C8: once [isGameOver] is set, [update] leaves the whole state as it
    is, for every [dt] and every random draw; so any sequence of ticks
    keeps the state, and [isGameOver] true, until a reset. *)
Theorem update_frozen_when_over (s : state) :
  isGameOver s = true ->
  (forall dt rnd, update dt rnd s = s) /\
  (forall ts, run_ticks ts s = s /\ isGameOver (run_ticks ts s) = true).
Proof.
  intro H.
  assert (Hu : forall dt rnd, update dt rnd s = s) by (intros; unfold update; now rewrite H).
  split; [exact Hu|].
  intro ts. induction ts as [|[dt rnd] ts IH]; simpl.
  - now split.
  - rewrite Hu. exact IH.
Qed.

Lemma update_frozen_when_over_witness :
  let s := set_isGameOver true (init_state 500 750 None) in
  isGameOver s = true /\ update 16 (0, 0)%Q s = s.
Proof.
  intro s. split; [reflexivity|].
  exact (proj1 (update_frozen_when_over s eq_refl) 16%Q (0, 0)%Q).
Defined.

(** ** Input *)

(** C10: [flap] during game over resets the world and applies no
    impulse: the new run starts with zero velocity, the mouth at the
    centre height and 28% of the width, no teeth, score 0, spawn timer and
    background offset 0, [isGameOver] cleared and the best score kept.
    Only when the game is not over does [flap] set the velocity to
    [FLAP_STRENGTH]. *)
Theorem flap_restart_no_impulse (now : Q) (s : state) :
  (isGameOver s = true ->
     mouthVelY (flap now s) = 0%Q /\
     mouthY (flap now s) = (inject_Z (ch s) / 2)%Q /\
     mouthX (flap now s) = (inject_Z (Zpos (cw s)) * (28 # 100))%Q /\
     pipes (flap now s) = [] /\ score (flap now s) = 0 /\
     lastPipeAt (flap now s) = 0%Q /\ backgroundOffset (flap now s) = 0%Q /\
     isGameOver (flap now s) = false /\ best (flap now s) = best s /\
     isRunning (flap now s) = true) /\
  (isGameOver s = false ->
     mouthVelY (flap now s) = FLAP_STRENGTH /\ isGameOver (flap now s) = false /\
     mouthY (flap now s) = mouthY s /\ pipes (flap now s) = pipes s /\
     score (flap now s) = score s /\ isRunning (flap now s) = true).
Proof.
  unfold flap.
  split; intro H; destruct (isRunning s) eqn:R; simpl; rewrite H; simpl;
    repeat split; try assumption; reflexivity.
Qed.

(** ** Spawning *)

(** C4: with both draws of [Math.random()] in [0,1) and a valid
    placement envelope (its upper bound above [topLimit] = 40),
    [spawnPipe] appends exactly one obstacle, not yet passed, whose gap
    lies in [140, 200], whose top height lies in
    [40, canvas.height - 80 - 40 - gap], so that top height + gap stays at
    most canvas.height - 120, and which starts at x = canvas.width + 70,
    its width 70. *)
Theorem spawnPipe_bounds (r1 r2 : Q) (s : state) :
  (0 <= r1 < 1)%Q -> (0 <= r2 < 1)%Q ->
  (40 < inject_Z (ch s) - GROUND_HEIGHT - 40 - (PIPE_GAP_MIN + r1 * (PIPE_GAP_MAX - PIPE_GAP_MIN)))%Q ->
  exists p, pipes (spawnPipe r1 r2 s) = pipes s ++ [p] /\
    (140 <= gap p <= 200)%Q /\
    (40 <= topHeight p <= inject_Z (ch s) - 80 - 40 - gap p)%Q /\
    (topHeight p + gap p <= inject_Z (ch s) - 80 - 40)%Q /\
    px p = (inject_Z (Zpos (cw s)) + 70)%Q /\ pwidth p = 70%Q /\ passed p = false.
Proof.
  intros [H1 H1'] [H2 H2'] Henv.
  eexists. split; [reflexivity|]. simpl.
  unfold PIPE_GAP_MIN, PIPE_GAP_MAX, GROUND_HEIGHT, PIPE_WIDTH in *.
  set (g := (140 + r1 * (200 - 140))%Q) in *.
  set (B := (inject_Z (ch s) - 80 - 40 - g)%Q) in *.
  assert (Hg : (140 <= g <= 200)%Q) by (unfold g; nra).
  assert (Hr : (0 <= r2 * (B - 40) <= B - 40)%Q) by nra.
  repeat split; try reflexivity; unfold B in *; lra.
Qed.

Lemma spawnPipe_bounds_witness :
  let s := init_state 500 750 None in
  (0 <= 1 # 2 < 1)%Q /\ (0 <= 1 # 4 < 1)%Q /\
  exists p, pipes (spawnPipe (1 # 2) (1 # 4) s) = pipes s ++ [p] /\ (140 <= gap p <= 200)%Q.
Proof.
  intro s.
  assert (A : (0 <= 1 # 2 < 1)%Q) by lra.
  assert (B : (0 <= 1 # 4 < 1)%Q) by lra.
  split; [exact A|]. split; [exact B|].
  destruct (spawnPipe_bounds (1 # 2) (1 # 4) s A B ltac:(vm_compute; reflexivity))
    as [p [E [G _]]].
  exists p. split; assumption.
Defined.

(** ** The obstacle loop *)

Lemma same_frame_refl (s : state) : same_frame s s.
Proof. repeat split. Qed.

Lemma same_frame_trans (s1 s2 s3 : state) :
  same_frame s1 s2 -> same_frame s2 s3 -> same_frame s1 s3.
Proof.
  unfold same_frame. intros H1 H2. intuition congruence.
Qed.

Lemma collide_frame (p : pipe) (s : state) :
  same_frame s (collide p s) /\ score (collide p s) = score s /\
  best (collide p s) = best s /\ writes (collide p s) = writes s /\
  (isGameOver s = true -> isGameOver (collide p s) = true).
Proof.
  unfold collide. destruct (_ || _); simpl; repeat split; auto.
Qed.

Lemma score_pipe_spec (p : pipe) (s : state) :
  let cross := Qltb (px p + pwidth p / 2) (mouthX s + MOUTH_SIZE / 2) in
  fst (score_pipe p s) = set_passed (passed p || cross) p /\
  same_frame s (snd (score_pipe p s)) /\
  score (snd (score_pipe p s)) = score s + (if negb (passed p) && cross then 1 else 0) /\
  isGameOver (snd (score_pipe p s)) = isGameOver s.
Proof.
  destruct p as [x w th g ps]. unfold score_pipe; simpl.
  destruct ps; simpl.
  - repeat split; lia.
  - destruct (Qltb _ _); simpl.
    + destruct (js_gt _ _); simpl; repeat split.
    + repeat split; lia.
Qed.

Lemma pipes_loop_spec (ps : list pipe) (s : state) :
  fst (pipes_loop ps s) = map (after_tick (mouthX s)) (filter kept ps) /\
  same_frame s (snd (pipes_loop ps s)) /\
  score (snd (pipes_loop ps s)) =
    score s + Z.of_nat (List.length (filter (newly_passed (mouthX s)) (filter kept ps))) /\
  (isGameOver s = true -> isGameOver (snd (pipes_loop ps s)) = true).
Proof.
  induction ps as [|p rest IH]; simpl.
  - split; [reflexivity|]. split; [apply same_frame_refl|]. split; [lia|auto].
  - destruct (pipes_loop rest s) as [rest' s1] eqn:E. simpl in IH.
    destruct IH as [IHl [IHf [IHs IHg]]].
    assert (MX : mouthX s1 = mouthX s) by (apply IHf).
    destruct p as [x w th g pa].
    replace (kept (mkPipe x w th g pa)) with (negb (Qltb (x - SCROLL_SPEED + w) (-10)))
      by reflexivity.
    simpl. destruct (Qltb (x - SCROLL_SPEED + w) (-10)) eqn:Hk; simpl.
    + auto.
    + destruct (score_pipe (set_px (x - SCROLL_SPEED) (mkPipe x w th g pa)) s1) as [p2 s2] eqn:Es.
      pose proof (score_pipe_spec (set_px (x - SCROLL_SPEED) (mkPipe x w th g pa)) s1) as Hs.
      rewrite Es in Hs. simpl in Hs. destruct Hs as [Hp [Hf [Hsc Hg]]].
      destruct (collide_frame p2 s2) as [Cf [Cs [_ [_ Cg]]]].
      rewrite MX in Hp, Hsc.
      simpl. split; [|split; [|split]].
      * rewrite IHl, Hp. reflexivity.
      * eapply same_frame_trans; [exact IHf|]. eapply same_frame_trans; eassumption.
      * rewrite Cs, Hsc, IHs. cbn [filter].
        change (newly_passed (mouthX s) (mkPipe x w th g pa))
          with (negb pa && Qltb (x - SCROLL_SPEED + w / 2) (mouthX s + MOUTH_SIZE / 2)).
        destruct pa; simpl.
        -- lia.
        -- destruct (Qltb (x - SCROLL_SPEED + w / 2) (mouthX s + MOUTH_SIZE / 2)); simpl; lia.
      * intro H. apply Cg. rewrite Hg. auto.
Qed.

(** ** The three phases of [update] *)

Lemma update_physics_spec (s : state) :
  let vel := (mouthVelY s + GRAVITY)%Q in
  let y := (mouthY s + vel)%Q in
  let y1 := if Qltb y 0 then 0%Q else y in
  let groundY := (inject_Z (ch s) - GROUND_HEIGHT - MOUTH_SIZE)%Q in
  mouthVelY (update_physics s) = (if Qltb y 0 then 0%Q else vel) /\
  mouthY (update_physics s) = (if Qltb groundY y1 then groundY else y1) /\
  isGameOver (update_physics s) = isGameOver s || Qltb groundY y1 /\
  cw (update_physics s) = cw s /\ ch (update_physics s) = ch s /\
  mouthX (update_physics s) = mouthX s /\ pipes (update_physics s) = pipes s /\
  lastPipeAt (update_physics s) = lastPipeAt s /\ score (update_physics s) = score s /\
  best (update_physics s) = best s /\ writes (update_physics s) = writes s.
Proof.
  unfold update_physics.
  destruct (Qltb (mouthY s + (mouthVelY s + GRAVITY)) 0);
    match goal with
    | |- context [Qltb ?g ?y] => destruct (Qltb g y)
    end; simpl; rewrite ?orb_true_r, ?orb_false_r; repeat split.
Qed.

Lemma update_pipes_spec (s : state) :
  pipes (update_pipes s) = map (after_tick (mouthX s)) (filter kept (pipes s)) /\
  score (update_pipes s) =
    score s + Z.of_nat (List.length (filter (newly_passed (mouthX s)) (filter kept (pipes s)))) /\
  cw (update_pipes s) = cw s /\ ch (update_pipes s) = ch s /\
  mouthY (update_pipes s) = mouthY s /\ mouthX (update_pipes s) = mouthX s /\
  mouthVelY (update_pipes s) = mouthVelY s /\ lastPipeAt (update_pipes s) = lastPipeAt s /\
  (isGameOver s = true -> isGameOver (update_pipes s) = true).
Proof.
  unfold update_pipes.
  set (s0 := set_backgroundOffset _ s).
  pose proof (pipes_loop_spec (pipes s0) s0) as [L [F [S G]]].
  destruct (pipes_loop (pipes s0) s0) as [ps s1]. simpl in *.
  destruct F as [F1 [F2 [F3 [F4 [F5 [F6 [F7 _]]]]]]]. unfold s0 in *; simpl in *.
  repeat split; auto; congruence.
Qed.

Lemma update_spawn_spec (dt : Q) (rnd : Q * Q) (s : state) :
  (exists extra, pipes (update_spawn dt rnd s) = pipes s ++ extra /\
     (extra = [] \/ exists q, extra = [q] /\ passed q = false /\ pwidth q = PIPE_WIDTH)) /\
  score (update_spawn dt rnd s) = score s /\ best (update_spawn dt rnd s) = best s /\
  writes (update_spawn dt rnd s) = writes s /\
  mouthY (update_spawn dt rnd s) = mouthY s /\ mouthX (update_spawn dt rnd s) = mouthX s /\
  mouthVelY (update_spawn dt rnd s) = mouthVelY s /\
  isGameOver (update_spawn dt rnd s) = isGameOver s.
Proof.
  unfold update_spawn. destruct (Qltb _ _); simpl.
  - split; [|repeat split]. eexists. split; [reflexivity|]. right. eexists. split; [reflexivity|].
    split; reflexivity.
  - split; [|repeat split]. exists []. split; [now rewrite app_nil_r|]. now left.
Qed.

(** C1: in a tick that starts while the game is not over, the velocity
    grows by [GRAVITY] once, whatever [dt] is, the position then grows by
    the new velocity, and the clamps follow in order: above the ceiling
    ([y < 0]) the position and the velocity are set to 0 and the game is
    not ended by it; below [groundLimit] (canvas height - 80 - 32) the
    position is set to [groundLimit] and the game is over.  Nothing later
    in the tick moves the mouth again. *)
Theorem update_physics_clamps (dt : Q) (rnd : Q * Q) (s : state) :
  isGameOver s = false ->
  let vel := (mouthVelY s + GRAVITY)%Q in
  let y := (mouthY s + vel)%Q in
  let y1 := if Qltb y 0 then 0%Q else y in
  let groundLimit := (inject_Z (ch s) - GROUND_HEIGHT - MOUTH_SIZE)%Q in
  mouthVelY (update dt rnd s) = (if Qltb y 0 then 0%Q else vel) /\
  mouthY (update dt rnd s) = (if Qltb groundLimit y1 then groundLimit else y1) /\
  isGameOver (update_physics s) = Qltb groundLimit y1 /\
  (Qltb groundLimit y1 = true -> isGameOver (update dt rnd s) = true).
Proof.
  intro H. cbv zeta.
  destruct (update_physics_spec s) as [V [Y [G _]]].
  destruct (update_pipes_spec (update_physics s)) as [_ [_ [_ [_ [PY [_ [PV [_ PG]]]]]]]].
  destruct (update_spawn_spec dt rnd (update_pipes (update_physics s)))
    as [_ [_ [_ [_ [SY [_ [SV SG]]]]]]].
  unfold update. rewrite H. rewrite G, H. simpl.
  split; [congruence|]. split; [congruence|]. split; [reflexivity|].
  intro Hg. rewrite SG. apply PG. rewrite G, H, Hg. reflexivity.
Qed.

Lemma update_physics_clamps_witness :
  let s := init_state 500 750 None in
  isGameOver s = false /\ mouthVelY (update 16 (0, 0)%Q s) = GRAVITY.
Proof.
  intro s. split; [reflexivity|].
  rewrite (proj1 (update_physics_clamps 16 (0, 0)%Q s eq_refl)). vm_compute. reflexivity.
Defined.

Lemma update_pipes_shape (dt : Q) (rnd : Q * Q) (s : state) :
  isGameOver s = false ->
  (exists extra, pipes (update dt rnd s) = map (after_tick (mouthX s)) (filter kept (pipes s)) ++ extra /\
     (extra = [] \/ exists q, extra = [q] /\ passed q = false /\ pwidth q = PIPE_WIDTH)) /\
  score (update dt rnd s) =
    score s + Z.of_nat (List.length (filter (newly_passed (mouthX s)) (filter kept (pipes s)))).
Proof.
  intro H. unfold update. rewrite H.
  destruct (update_physics_spec s) as [_ [_ [_ [_ [_ [HX [HP [_ [HS _]]]]]]]]].
  destruct (update_pipes_spec (update_physics s)) as [PP [PS _]].
  destruct (update_spawn_spec dt rnd (update_pipes (update_physics s))) as [[extra [E Ex]] [SS _]].
  rewrite HX, HP in PP. rewrite HX, HP, HS in PS.
  split.
  - exists extra. rewrite E, PP. split; [reflexivity | exact Ex].
  - rewrite SS. exact PS.
Qed.

Lemma update_score_mono (dt : Q) (rnd : Q * Q) (s : state) : score s <= score (update dt rnd s).
Proof.
  destruct (isGameOver s) eqn:H.
  - unfold update. rewrite H. lia.
  - rewrite (proj2 (update_pipes_shape dt rnd s H)). lia.
Qed.

Lemma run_ticks_score_mono (ts : list (Q * (Q * Q))) (s : state) :
  score s <= score (run_ticks ts s).
Proof.
  revert s. induction ts as [|[dt rnd] ts IH]; intro s; simpl.
  - lia.
  - specialize (IH (update dt rnd s)). pose proof (update_score_mono dt rnd s). lia.
Qed.

(** C2: in a tick that starts while the game is not over, every obstacle
    kept by the tick comes out with [passed] = [passed || crosses], where
    [crosses] says that its advanced centre is left of the mouth centre:
    a passed obstacle stays passed, and one flips only in a tick in which
    its centre is left of the mouth's.  The score grows by exactly the
    number of kept obstacles that flip in this tick (an obstacle already
    passed adds nothing); a new obstacle starts unpassed.  Over any
    sequence of ticks the score never decreases. *)
Theorem update_scoring (dt : Q) (rnd : Q * Q) (s : state) :
  isGameOver s = false ->
  (exists extra, pipes (update dt rnd s) = map (after_tick (mouthX s)) (filter kept (pipes s)) ++ extra /\
     (extra = [] \/ exists q, extra = [q] /\ passed q = false)) /\
  (forall p, passed (after_tick (mouthX s) p) = passed p || crosses (mouthX s) p) /\
  score (update dt rnd s) =
    score s + Z.of_nat (List.length (filter (newly_passed (mouthX s)) (filter kept (pipes s)))) /\
  (forall ts, score s <= score (run_ticks ts s)).
Proof.
  intro H. destruct (update_pipes_shape dt rnd s H) as [[extra [E Ex]] S].
  split; [|split; [|split]].
  - exists extra. split; [exact E|]. destruct Ex as [Ex | [q [Eq [Pq _]]]]; [now left | right].
    exists q. split; assumption.
  - intro p. reflexivity.
  - exact S.
  - intro ts. apply run_ticks_score_mono.
Qed.

Lemma update_scoring_witness :
  let s := set_pipes [mkPipe 100 70 100 150 false] (init_state 500 750 None) in
  isGameOver s = false /\ score (update 16 (0, 0)%Q s) = 1.
Proof.
  intro s. split; [reflexivity|].
  rewrite (proj1 (proj2 (proj2 (update_scoring 16 (0, 0)%Q s eq_refl)))).
  vm_compute. reflexivity.
Defined.

(** ** Scrolling and removal *)

(** C7 (as stated, refuted): the obstacle is still active after 30 ticks,
    at x = -78. *)
Lemma scroll_30_ticks_still_present :
  map (fun p => Qred (px p)) (pipes (run_ticks (repeat tick16 30) scroll_state)) = [(-78)%Q].
Proof. vm_compute. reflexivity. Qed.

Lemma update_spawn_exact (dt : Q) (rnd : Q * Q) (s : state) :
  exists q, px q = (inject_Z (Zpos (cw s)) + PIPE_WIDTH)%Q /\ pwidth q = PIPE_WIDTH /\
    passed q = false /\
    pipes (update_spawn dt rnd s) =
      pipes s ++ (if Qltb PIPE_INTERVAL_MS (lastPipeAt s + dt) then [q] else []).
Proof.
  unfold update_spawn. simpl. destruct (Qltb _ _); simpl.
  - match goal with |- context [pipes s ++ [?p]] => exists p end.
    split; [reflexivity|]. split; [reflexivity|]. split; reflexivity.
  - exists (mkPipe (inject_Z (Zpos (cw s)) + PIPE_WIDTH) PIPE_WIDTH 0 0 false).
    split; [reflexivity|]. split; [reflexivity|]. split; [reflexivity|].
    now rewrite app_nil_r.
Qed.

(** The obstacle list after a tick of a running game. *)
Lemma update_exact (dt : Q) (rnd : Q * Q) (s : state) :
  isGameOver s = false ->
  exists q, px q = (inject_Z (Zpos (cw s)) + PIPE_WIDTH)%Q /\ pwidth q = PIPE_WIDTH /\
    passed q = false /\
    pipes (update dt rnd s) =
      map (after_tick (mouthX s)) (filter kept (pipes s)) ++
      (if Qltb PIPE_INTERVAL_MS (lastPipeAt s + dt) then [q] else []).
Proof.
  intro H. unfold update. rewrite H.
  destruct (update_physics_spec s) as [_ [_ [_ [W [_ [X [P [L _]]]]]]]].
  destruct (update_pipes_spec (update_physics s)) as [PP [_ [PW [_ [_ [_ [_ [PL _]]]]]]]].
  destruct (update_spawn_exact dt rnd (update_pipes (update_physics s))) as [q [Qx [Qw [Qp E]]]].
  exists q. rewrite Qx, PW, W. split; [reflexivity|]. split; [exact Qw|]. split; [exact Qp|].
  rewrite E, PP, PL, X, P, L. reflexivity.
Qed.

(** C7 (amended): in a tick that starts while the game is not over, each
    obstacle moves left by [SCROLL_SPEED] and is dropped exactly when its
    new x + width is below -10: the new list is the moved obstacles that
    are kept, in their order, followed only by the obstacle spawned in that
    tick, if any (x = canvas width + 70, not passed).  An obstacle at
    x = 0 of width 70 is at x = -78 after 30 ticks, with x + width = -8,
    so it is still active; the 31st tick drops it (x + width = -10.6). *)
Theorem update_scroll_removal :
  (forall dt rnd s, isGameOver s = false ->
     (forall p, kept p = negb (Qltb (px p - SCROLL_SPEED + pwidth p) (-10))) /\
     (forall mx p, px (after_tick mx p) = (px p - SCROLL_SPEED)%Q /\
                   pwidth (after_tick mx p) = pwidth p) /\
     exists q, px q = (inject_Z (Zpos (cw s)) + PIPE_WIDTH)%Q /\ passed q = false /\
       pipes (update dt rnd s) =
         map (after_tick (mouthX s)) (filter kept (pipes s)) ++
         (if Qltb PIPE_INTERVAL_MS (lastPipeAt s + dt) then [q] else [])) /\
  map (fun p => Qred (px p)) (pipes (run_ticks (repeat tick16 30) scroll_state)) = [(-78)%Q] /\
  map (fun p => Qred (px p + pwidth p)) (pipes (run_ticks (repeat tick16 30) scroll_state)) = [(-8)%Q] /\
  isGameOver (run_ticks (repeat tick16 30) scroll_state) = false /\
  pipes (run_ticks (repeat tick16 31) scroll_state) = [].
Proof.
  split.
  - intros dt rnd s H. split; [intro p; reflexivity|].
    split; [intros mx p; destruct p; split; reflexivity|].
    destruct (update_exact dt rnd s H) as [q [Qx [_ [Qp E]]]].
    exists q. split; [exact Qx|]. split; [exact Qp | exact E].
  - vm_compute. repeat split; reflexivity.
Qed.

(** ** The best score *)

Lemma js_le_refl (a : jsnum) : js_le a a.
Proof. now left. Qed.

Lemma js_le_trans (a b c : jsnum) : js_le a b -> js_le b c -> js_le a c.
Proof.
  intros [<- | [y [-> Hy]]] [<- | [z [-> Hz]]]; unfold js_le.
  - now left.
  - right. now exists z.
  - right. now exists y.
  - right. exists z. split; [reflexivity|].
    destruct a; simpl in *; try discriminate; try reflexivity.
    apply Qltb_spec. apply Qltb_spec in Hy, Hz. lra.
Qed.

Lemma score_pipe_best (p : pipe) (s : state) : js_le (best s) (best (snd (score_pipe p s))).
Proof.
  unfold score_pipe. destruct (_ && _); simpl; [|apply js_le_refl].
  destruct (js_gt _ _) eqn:G; simpl; [|apply js_le_refl].
  right. eexists. split; [reflexivity | exact G].
Qed.

Lemma pipes_loop_best (ps : list pipe) (s : state) : js_le (best s) (best (snd (pipes_loop ps s))).
Proof.
  induction ps as [|p rest IH]; simpl; [apply js_le_refl|].
  destruct (pipes_loop rest s) as [rest' s1]. simpl in IH.
  destruct (Qltb _ _); simpl; [exact IH|].
  pose proof (score_pipe_best (set_px (px p - SCROLL_SPEED) p) s1) as B.
  destruct (score_pipe _ s1) as [p2 s2]. simpl in *.
  destruct (collide_frame p2 s2) as [_ [_ [Cb _]]]. rewrite Cb.
  eapply js_le_trans; eassumption.
Qed.

Lemma update_best (dt : Q) (rnd : Q * Q) (s : state) : js_le (best s) (best (update dt rnd s)).
Proof.
  unfold update. destruct (isGameOver s); [apply js_le_refl|].
  destruct (update_spawn_spec dt rnd (update_pipes (update_physics s))) as [_ [_ [Sb _]]].
  rewrite Sb. unfold update_pipes.
  destruct (update_physics_spec s) as [_ [_ [_ [_ [_ [_ [_ [_ [_ [Pb _]]]]]]]]]].
  set (s0 := set_backgroundOffset _ _).
  pose proof (pipes_loop_best (pipes s0) s0) as L.
  destruct (pipes_loop (pipes s0) s0) as [ps s1]. simpl in *. congruence.
Qed.

Lemma best_tracks_ext (b0 : Q) (s0 s s' : state) :
  score s' = score s -> best s' = best s -> writes s' = writes s ->
  best_tracks b0 s0 s -> best_tracks b0 s0 s'.
Proof. unfold best_tracks. intros -> -> ->. exact (fun H => H). Qed.

Lemma best_tracks_score_pipe (b0 : Q) (s0 : state) (p : pipe) (s : state) :
  best_tracks b0 s0 s -> best_tracks b0 s0 (snd (score_pipe p s)).
Proof.
  intros [[c [Hb Hc]] [nw [Hw Hn]]]. unfold score_pipe.
  destruct (_ && _); simpl; [|split; [exists c | exists nw]; auto].
  rewrite Hb. simpl.
  assert (K : (inject_Z (score s + 1) == inject_Z (score s) + 1)%Q)
    by (rewrite inject_Z_plus; reflexivity).
  destruct (Q.max_spec b0 (inject_Z (score s))) as [[M1 M2] | [M1 M2]];
    rewrite M2 in Hc.
  - (* the score is already above [b0]: it is the best, and grows with it *)
    assert (G : Qltb c (inject_Z (score s + 1)) = true) by (apply Qltb_spec; lra).
    rewrite G. simpl. split.
    + eexists. split; [reflexivity|]. simpl; rewrite Q.max_r; [reflexivity | lra].
    + exists (js_String_of_Z (score s + 1) :: nw). simpl. rewrite Hw.
      split; [reflexivity|]. split; [discriminate | lra].
  - destruct (Qltb c (inject_Z (score s + 1))) eqn:G; simpl.
    + apply Qltb_spec in G. split.
      * eexists. split; [reflexivity|]. simpl; rewrite Q.max_r; [reflexivity | lra].
      * exists (js_String_of_Z (score s + 1) :: nw). simpl. rewrite Hw.
        split; [reflexivity|]. split; [discriminate | lra].
    + apply Qltb_false in G. split.
      * exists c. simpl. split; [exact Hb|]. rewrite Q.max_l; [exact Hc | lra].
      * exists nw. simpl. split; [exact Hw|].
        split; intro; [lra|]. apply Hn. exact M1.
Qed.

Lemma best_tracks_pipes_loop (b0 : Q) (s0 : state) (ps : list pipe) (s : state) :
  best_tracks b0 s0 s -> best_tracks b0 s0 (snd (pipes_loop ps s)).
Proof.
  intro H. induction ps as [|p rest IH]; simpl; [exact H|].
  destruct (pipes_loop rest s) as [rest' s1]. simpl in IH.
  destruct (Qltb _ _); simpl; [exact IH|].
  pose proof (best_tracks_score_pipe b0 s0 (set_px (px p - SCROLL_SPEED) p) s1 IH) as B.
  destruct (score_pipe _ s1) as [p2 s2]. simpl in *.
  destruct (collide_frame p2 s2) as [_ [Cs [Cb [Cw _]]]].
  exact (best_tracks_ext b0 s0 s2 _ Cs Cb Cw B).
Qed.

Lemma best_tracks_update (b0 : Q) (s0 : state) (dt : Q) (rnd : Q * Q) (s : state) :
  best_tracks b0 s0 s -> best_tracks b0 s0 (update dt rnd s).
Proof.
  intro H. unfold update. destruct (isGameOver s); [exact H|].
  destruct (update_spawn_spec dt rnd (update_pipes (update_physics s))) as [_ [Ss [Sb [Sw _]]]].
  apply (best_tracks_ext b0 s0 (update_pipes (update_physics s))); auto.
  destruct (update_physics_spec s) as [_ [_ [_ [_ [_ [_ [_ [_ [Ps [Pb Pw]]]]]]]]]].
  apply (best_tracks_ext b0 s0 s (update_physics s)) in H; auto.
  unfold update_pipes.
  set (s1 := set_backgroundOffset _ _).
  assert (H1 : best_tracks b0 s0 s1) by exact H.
  pose proof (best_tracks_pipes_loop b0 s0 (pipes s1) s1 H1) as L.
  destruct (pipes_loop (pipes s1) s1) as [ps s2]. exact L.
Qed.

Lemma best_tracks_run (b0 : Q) (s0 : state) (ts : list (Q * (Q * Q))) (s : state) :
  best_tracks b0 s0 s -> best_tracks b0 s0 (run_ticks ts s).
Proof.
  revert s. induction ts as [|[dt rnd] ts IH]; intros s H; simpl; [exact H|].
  apply IH. apply best_tracks_update. exact H.
Qed.

Lemma best_tracks_start (b : Q) (s : state) :
  best s = JNum b -> (inject_Z (score s) <= b)%Q -> best_tracks b s s.
Proof.
  intros Hb Hs. split.
  - exists b. split; [exact Hb|]. rewrite Q.max_l; [reflexivity | exact Hs].
  - exists []. split; [reflexivity|]. split; intro; [exact Hs | reflexivity].
Qed.

Lemma step_best (o : op) (s : state) : js_le (best s) (best (step o s)).
Proof.
  destruct o as [dt rnd | t rnd | now |]; simpl.
  - apply update_best.
  - unfold gameLoop. apply (update_best _ rnd (set_lastTimestamp t s)).
  - unfold flap. left. destruct (isRunning s); simpl; destruct (isGameOver s); reflexivity.
  - left. reflexivity.
Qed.

(** C3 (as stated, refuted): from the stored best "-1", one tick with no
    obstacle leaves the best score at -1 and the score at 0, and -1 is not
    max(-1, 0). *)
Lemma best_not_max_of_scores :
  let s := run_ticks [tick16] negative_best_start in
  num_is (best s) (-1) /\ score s = 0 /\ ~ num_is (best s) (Qmax (-1) (inject_Z (score s))).
Proof.
  vm_compute. split; [reflexivity|]. split; [reflexivity|]. discriminate.
Qed.

(** C3 (amended): every operation (tick, frame, flap, reset) leaves the
    best score equal or raises it to a finite number above it, and the
    reset sets the score to 0 without touching the best score.  Starting
    from a state whose best score is a finite [b] at least its score, any
    sequence of ticks keeps the score from decreasing and ends with the
    best score equal to max(b, final score), the largest score reached;
    a single such tick writes to storage iff its final score exceeds [b],
    the best score at its entry. *)
Theorem best_score_tracking :
  (forall o s, js_le (best s) (best (step o s))) /\
  (forall s, best (resetGame s) = best s /\ score (resetGame s) = 0) /\
  (forall ts s b, best s = JNum b -> (inject_Z (score s) <= b)%Q ->
     score s <= score (run_ticks ts s) /\
     exists c, best (run_ticks ts s) = JNum c /\
               (c == Qmax b (inject_Z (score (run_ticks ts s))))%Q) /\
  (forall dt rnd s b, best s = JNum b -> (inject_Z (score s) <= b)%Q ->
     (writes (update dt rnd s) <> writes s <-> (b < inject_Z (score (update dt rnd s)))%Q)).
Proof.
  split; [exact step_best|]. split; [intro s; split; reflexivity|]. split.
  - intros ts s b Hb Hs. split; [apply run_ticks_score_mono|].
    destruct (best_tracks_run b s ts s (best_tracks_start b s Hb Hs)) as [Hc _]. exact Hc.
  - intros dt rnd s b Hb Hs.
    destruct (best_tracks_update b s dt rnd s (best_tracks_start b s Hb Hs)) as [_ [nw [Hw Hn]]].
    rewrite Hw. split.
    + intro Hne. apply Qnot_le_lt. intro Hle. apply Hne. rewrite (proj2 Hn Hle). reflexivity.
    + intros Hlt Heq. assert (E : nw = []).
      { apply (f_equal (@List.length string)) in Heq. rewrite length_app in Heq.
        destruct nw; [reflexivity | simpl in Heq; lia]. }
      apply (proj1 Hn) in E. exact (Qlt_not_le _ _ Hlt E).
Qed.

(** ** Reading the stored best score *)

Lemma digit_val_char (d : Z) : is_digit d -> digit_val 10 (digit_char d) = Some d.
Proof. intro H. digit_cases d; reflexivity. Qed.

Lemma prefix_base_digit (d : Z) : is_digit d -> prefix_base (digit_char d) = None.
Proof. intro H. digit_cases d; reflexivity. Qed.

Lemma is_ws_digit (d : Z) : is_digit d -> is_ws (digit_char d) = false.
Proof. intro H. digit_cases d; reflexivity. Qed.

Lemma take_digits_all (ds : list Z) (acc : Z) (n : nat) :
  Forall is_digit ds ->
  take_digits 10 acc n (map digit_char ds) =
    (fold_left (fun a d => a * 10 + d) ds acc, (n + List.length ds)%nat, []).
Proof.
  revert acc n. induction ds as [|d ds IH]; intros acc n H; cbn [map take_digits fold_left List.length].
  - now rewrite Nat.add_0_r.
  - inversion H as [|? ? Hd Hds]; subst.
    rewrite (digit_val_char d Hd), IH by exact Hds.
    now rewrite Nat.add_succ_r.
Qed.

Lemma le_digits_spec (fuel : nat) (n : Z) :
  0 <= n < 2 ^ Z.of_nat fuel ->
  Forall is_digit (le_digits fuel n) /\
  fold_right (fun d a => a * 10 + d) 0 (le_digits fuel n) = n /\
  (fuel <> O -> le_digits fuel n <> []).
Proof.
  revert n. induction fuel as [|f IH]; intros n Hn; simpl.
  - simpl in Hn. split; [constructor|]. split; [lia|]. now intro.
  - destruct (n <? 10) eqn:L.
    + apply Z.ltb_lt in L. split; [constructor; [unfold is_digit; lia | constructor]|].
      split; [simpl; lia | discriminate].
    + apply Z.ltb_ge in L.
      assert (Hq : 0 <= n / 10 < 2 ^ Z.of_nat f).
      { split; [apply Z.div_pos; lia|]. apply Z.div_lt_upper_bound; [lia|].
        rewrite Nat2Z.inj_succ, Z.pow_succ_r in Hn by lia. lia. }
      destruct (IH (n / 10) Hq) as [F [V _]].
      pose proof (Z.div_mod n 10 ltac:(lia)). pose proof (Z.mod_pos_bound n 10 ltac:(lia)).
      split; [constructor; [unfold is_digit; lia | exact F]|].
      split; [simpl; rewrite V; lia | discriminate].
Qed.

Lemma fold_left_rev_digits (l : list Z) :
  fold_left (fun a d => a * 10 + d) (rev l) 0 = fold_right (fun d a => a * 10 + d) 0 l.
Proof.
  induction l as [|d l IH]; simpl; [reflexivity|].
  rewrite fold_left_app. simpl. rewrite IH. reflexivity.
Qed.

Lemma digits_of_spec (n : Z) :
  0 <= n ->
  Forall is_digit (rev (digits_of n)) /\ dec_value (rev (digits_of n)) = n /\
  rev (digits_of n) <> [].
Proof.
  intro Hn. unfold digits_of, dec_value.
  destruct (le_digits_spec (S (Z.to_nat (Z.log2 n))) n) as [F [V NE]].
  { split; [exact Hn|]. rewrite Nat2Z.inj_succ, Z2Nat.id by apply Z.log2_nonneg.
    destruct (Z.eq_dec n 0) as [-> | Hnz]; [reflexivity|].
    apply Z.log2_spec. lia. }
  split; [apply Forall_rev; exact F|]. split.
  - rewrite fold_left_rev_digits. exact V.
  - intro E. apply (f_equal (@rev Z)) in E. rewrite rev_involutive in E. simpl in E.
    exact (NE ltac:(discriminate) E).
Qed.

Lemma drop_ws_id (l : list ascii) : (forall c, In c l -> is_ws c = false) -> drop_ws l = l.
Proof. destruct l as [|c l]; intro H; simpl; [reflexivity|]. now rewrite (H c (or_introl eq_refl)). Qed.

Lemma trim_id (l : list ascii) : (forall c, In c l -> is_ws c = false) -> trim l = l.
Proof.
  intro H. unfold trim. rewrite (drop_ws_id l H), drop_ws_id.
  - apply rev_involutive.
  - intros c Hc. apply H. now apply in_rev.
Qed.

Lemma digit_char_not_sign (d : Z) :
  is_digit d -> digit_char d <> "+"%char /\ digit_char d <> "-"%char.
Proof. intro H. digit_cases d; split; discriminate. Qed.

Lemma parse_decimal_other (c : ascii) (r : list ascii) :
  c <> "+"%char -> c <> "-"%char -> parse_decimal (c :: r) = parse_unsigned (c :: r).
Proof.
  intros H1 H2. destruct c as [[] [] [] [] [] [] [] []]; try reflexivity;
    exfalso; [apply H1 | apply H2]; reflexivity.
Qed.

Lemma parse_numeric_other (c : ascii) (r : list ascii) :
  c <> "0"%char -> parse_numeric (c :: r) = parse_decimal (c :: r).
Proof.
  intro H. destruct c as [[] [] [] [] [] [] [] []]; try reflexivity.
  exfalso; apply H; reflexivity.
Qed.

Lemma parse_numeric_zero (c : ascii) (r : list ascii) :
  prefix_base c = None -> parse_numeric ("0"%char :: c :: r) = parse_decimal ("0"%char :: c :: r).
Proof. intro H. unfold parse_numeric. lazy beta iota. rewrite H. reflexivity. Qed.

Lemma parse_unsigned_digits (d1 : Z) (ds : list Z) :
  Forall is_digit (d1 :: ds) ->
  parse_unsigned (digit_char d1 :: map digit_char ds) =
    Some (JNum (inject_Z (dec_value (d1 :: ds)) * Qpower (inject_Z 10) 0)%Q).
Proof.
  intro H. inversion H as [|? ? Hd _]; subst.
  unfold parse_unsigned.
  replace (String.eqb (string_of_list_ascii (digit_char d1 :: map digit_char ds)) "Infinity")
    with false by (clear H; digit_cases d1; reflexivity).
  change (digit_char d1 :: map digit_char ds) with (map digit_char (d1 :: ds)).
  rewrite take_digits_all by exact H. reflexivity.
Qed.

Lemma parse_numeric_digits (d1 : Z) (ds : list Z) :
  Forall is_digit (d1 :: ds) ->
  parse_numeric (digit_char d1 :: map digit_char ds) = parse_unsigned (digit_char d1 :: map digit_char ds).
Proof.
  intro H. inversion H as [|? ? Hd Hds]; subst.
  destruct (digit_char_not_sign d1 Hd) as [N1 N2].
  destruct (Z.eq_dec d1 0) as [-> | Hz].
  - destruct ds as [|d2 ds]; [reflexivity|].
    inversion Hds as [|? ? Hd2 _]; subst.
    change (digit_char 0) with "0"%char. cbn [map].
    rewrite parse_numeric_zero by exact (prefix_base_digit d2 Hd2).
    apply parse_decimal_other; discriminate.
  - rewrite parse_numeric_other.
    + apply parse_decimal_other; assumption.
    + clear H. digit_cases d1; try lia; discriminate.
Qed.

Lemma read_best_String (n : Z) :
  Z.abs n < 10 ^ 21 -> num_is (read_best (Some (js_String_of_Z n))) (inject_Z n).
Proof.
  intro Hn. unfold read_best, js_String_of_Z.
  replace (Z.abs n <? 10 ^ 21) with true by (symmetry; apply Z.ltb_lt; exact Hn).
  destruct (digits_of_spec (Z.abs n) (Z.abs_nonneg n)) as [F [V NE]].
  destruct (rev (digits_of (Z.abs n))) as [|d1 ds] eqn:E; [contradiction|].
  assert (Hch : forall c, In c (map digit_char (d1 :: ds)) -> is_ws c = false).
  { intros c Hc. apply in_map_iff in Hc. destruct Hc as [d [<- Hd]].
    apply is_ws_digit. rewrite Forall_forall in F. exact (F d Hd). }
  unfold Number_of_string. rewrite list_ascii_of_string_of_list_ascii.
  match goal with
  | |- context [String.eqb ?x ""] => replace (String.eqb x "") with false
      by (destruct (n <? 0); reflexivity)
  end.
  destruct (n <? 0) eqn:Hs.
  - apply Z.ltb_lt in Hs. rewrite trim_id.
    2: { intros c [<- | Hc]; [reflexivity | exact (Hch c Hc)]. }
    cbn [app map].
    change (parse_numeric ("-"%char :: digit_char d1 :: map digit_char ds))
      with (option_map js_neg (parse_unsigned (digit_char d1 :: map digit_char ds))).
    rewrite parse_unsigned_digits by exact F. cbn [option_map js_neg num_is].
    rewrite V, Z.abs_neq by lia. rewrite inject_Z_opp. simpl Qpower. lra.
  - apply Z.ltb_ge in Hs. rewrite app_nil_l, trim_id by exact Hch.
    cbn [map].
    rewrite parse_numeric_digits, parse_unsigned_digits by exact F.
    cbn [num_is]. rewrite V, Z.abs_eq by lia. simpl Qpower. lra.
Qed.

(** C5 (as stated, refuted): a stored value that is not a number, such
    as "abc", is read as [NaN], not as 0. *)
Lemma read_best_invalid_is_NaN : read_best (Some "abc"%string) = JNaN.
Proof. reflexivity. Qed.

(** C5 (amended): the startup read yields 0 when the key is absent, or
    when the stored value is empty or only white space; for a stored
    [String(n)] of an integer [n] with |n| < 10^21, the form the game
    writes, it yields [n]; any other string gives [Number(s)], which is
    [NaN] for a non-numeric string such as "abc". *)
Theorem read_best_spec :
  read_best None = JNum 0 /\
  (forall s, trim (list_ascii_of_string s) = [] -> read_best (Some s) = JNum 0) /\
  (forall n, Z.abs n < 10 ^ 21 -> num_is (read_best (Some (js_String_of_Z n))) (inject_Z n)) /\
  (forall s, String.eqb s "" = false -> read_best (Some s) = Number_of_string s) /\
  read_best (Some "abc"%string) = JNaN.
Proof.
  split; [reflexivity|]. split.
  - intros s H. unfold read_best. destruct (String.eqb s ""); [reflexivity|].
    unfold Number_of_string. rewrite H. reflexivity.
  - split; [exact read_best_String|]. split; [|reflexivity].
    intros s H. unfold read_best. rewrite H. reflexivity.
Qed.


(** * Further properties of the code *)

(** ** Helpers for the further properties *)

Lemma hits_set_passed (mx my h : Q) (b : bool) (p : pipe) :
  hits mx my h (set_passed b p) = hits mx my h p.
Proof. destruct p; reflexivity. Qed.

Lemma collide_over (p : pipe) (s : state) :
  isGameOver (collide p s) = isGameOver s || hits (mouthX s) (mouthY s) (inject_Z (ch s)) p.
Proof.
  unfold collide, hits. destruct (_ || _); simpl.
  - now rewrite orb_true_r.
  - now rewrite orb_false_r.
Qed.

Lemma pipes_loop_over (ps : list pipe) (s : state) :
  isGameOver (snd (pipes_loop ps s)) =
  isGameOver s || existsb (fun p => hits (mouthX s) (mouthY s) (inject_Z (ch s)) (advance p))
                          (filter kept ps).
Proof.
  induction ps as [|p rest IH]; simpl.
  - now rewrite orb_false_r.
  - pose proof (pipes_loop_spec rest s) as [_ [F _]].
    destruct (pipes_loop rest s) as [rest' s1] eqn:E. simpl in IH, F.
    destruct F as [_ [F2 [F3 [F4 _]]]].
    destruct p as [x w th g pa].
    replace (kept (mkPipe x w th g pa)) with (negb (Qltb (x - SCROLL_SPEED + w) (-10)))
      by reflexivity.
    simpl. destruct (Qltb (x - SCROLL_SPEED + w) (-10)) eqn:Hk; simpl.
    + exact IH.
    + destruct (score_pipe (set_px (x - SCROLL_SPEED) (mkPipe x w th g pa)) s1) as [p2 s2] eqn:Es.
      pose proof (score_pipe_spec (set_px (x - SCROLL_SPEED) (mkPipe x w th g pa)) s1) as Hs.
      rewrite Es in Hs. simpl in Hs. destruct Hs as [Hp [Hf [_ Hg]]].
      destruct Hf as [_ [G2 [G3 [G4 _]]]].
      simpl. rewrite collide_over, Hg, IH, Hp, hits_set_passed, G2, G3, G4, F2, F3, F4.
      unfold advance. simpl.
      destruct (isGameOver s), (hits _ _ _ _), (existsb _ _); reflexivity.
Qed.

Lemma update_spawn_more (dt : Q) (rnd : Q * Q) (s : state) :
  cw (update_spawn dt rnd s) = cw s /\ ch (update_spawn dt rnd s) = ch s /\
  backgroundOffset (update_spawn dt rnd s) = backgroundOffset s /\
  stored (update_spawn dt rnd s) = stored s /\
  lastPipeAt (update_spawn dt rnd s) =
    (if Qltb PIPE_INTERVAL_MS (lastPipeAt s + dt) then 0 else lastPipeAt s + dt)%Q /\
  (pipes (update_spawn dt rnd s) = pipes s \/
   exists q, pipes (update_spawn dt rnd s) = pipes s ++ [q] /\
     px q = (inject_Z (Zpos (cw s)) + PIPE_WIDTH)%Q /\ pwidth q = PIPE_WIDTH).
Proof.
  unfold update_spawn. destruct (Qltb _ _); simpl; repeat split.
  - right. eexists. split; [reflexivity|]. split; reflexivity.
  - now left.
Qed.

Lemma pipes_loop_store (ps : list pipe) (s : state) :
  persisted s -> persisted (snd (pipes_loop ps s)).
Proof.
  induction ps as [|p rest IH]; simpl; [auto|]. intro H0.
  specialize (IH H0).
  destruct (pipes_loop rest s) as [rest' s1]. simpl in IH.
  destruct (Qltb _ _); simpl; [exact IH|].
  unfold score_pipe.
  destruct (negb _ && _); simpl.
  - destruct (js_gt _ _); simpl.
    + unfold collide. destruct (_ || _); simpl; right; eexists; split; reflexivity.
    + unfold collide. destruct (_ || _); exact IH.
  - unfold collide. destruct (_ || _); exact IH.
Qed.

Lemma update_pipes_more (s : state) :
  cw (update_pipes s) = cw s /\ ch (update_pipes s) = ch s /\
  mouthX (update_pipes s) = mouthX s /\ mouthY (update_pipes s) = mouthY s /\
  backgroundOffset (update_pipes s) = js_rem (backgroundOffset s + SCROLL_SPEED) (cw s) /\
  lastPipeAt (update_pipes s) = lastPipeAt s /\
  pipes (update_pipes s) = map (after_tick (mouthX s)) (filter kept (pipes s)) /\
  isGameOver (update_pipes s) =
    isGameOver s || existsb (fun p => hits (mouthX s) (mouthY s) (inject_Z (ch s)) (advance p))
                            (filter kept (pipes s)) /\
  (persisted s -> persisted (update_pipes s)).
Proof.
  unfold update_pipes.
  set (s0 := set_backgroundOffset _ s).
  pose proof (pipes_loop_spec (pipes s0) s0) as [PL [PF _]].
  pose proof (pipes_loop_over (pipes s0) s0) as PO.
  pose proof (pipes_loop_store (pipes s0) s0) as PSt.
  destruct (pipes_loop (pipes s0) s0) as [ps2 s2]. simpl in *.
  destruct PF as [F1 [F2 [F3 [F4 [_ [_ [F7 [_ [_ F10]]]]]]]]].
  unfold s0 in *; simpl in *.
  repeat split; try congruence.
  intro HP. apply PSt. exact HP.
Qed.

(** [update] on a running game, field by field. *)
Lemma update_running (dt : Q) (rnd : Q * Q) (s : state) :
  isGameOver s = false ->
  let s1 := update_physics s in
  cw (update dt rnd s) = cw s /\ ch (update dt rnd s) = ch s /\
  mouthX (update dt rnd s) = mouthX s /\ mouthY (update dt rnd s) = mouthY s1 /\
  backgroundOffset (update dt rnd s) = js_rem (backgroundOffset s + SCROLL_SPEED) (cw s) /\
  lastPipeAt (update dt rnd s) =
    (if Qltb PIPE_INTERVAL_MS (lastPipeAt s + dt) then 0 else lastPipeAt s + dt)%Q /\
  (pipes (update dt rnd s) = map (after_tick (mouthX s)) (filter kept (pipes s)) \/
   exists q, pipes (update dt rnd s) = map (after_tick (mouthX s)) (filter kept (pipes s)) ++ [q] /\
     px q = (inject_Z (Zpos (cw s)) + PIPE_WIDTH)%Q /\ pwidth q = PIPE_WIDTH) /\
  isGameOver (update dt rnd s) =
    isGameOver s1 || existsb (fun p => hits (mouthX s) (mouthY s1) (inject_Z (ch s)) (advance p))
                             (filter kept (pipes s)) /\
  (persisted s -> persisted (update dt rnd s)).
Proof.
  intros H s1. unfold update. rewrite H. fold s1.
  destruct (update_physics_spec s) as [_ [_ [_ [W [C [X [P [L [_ [B Wr]]]]]]]]]].
  fold s1 in W, C, X, P, L, B, Wr.
  destruct (update_spawn_more dt rnd (update_pipes s1)) as [SW [SC [SB [SS [SL SP]]]]].
  destruct (update_spawn_spec dt rnd (update_pipes s1)) as [_ [_ [SBe [SWr [SY [SX [_ SG]]]]]]].
  destruct (update_pipes_more s1) as [U1 [U2 [U3 [U4 [U5 [U6 [U7 [U8 U9]]]]]]]].
  assert (BG : backgroundOffset s1 = backgroundOffset s).
  { unfold s1, update_physics.
    repeat match goal with |- context [if ?c then _ else _] => destruct c end; reflexivity. }
  rewrite SW, SC, SB, SL, SY, SX, SG, U1, U2, U3, U4, U5, U6, U8, W, C, X, P, L, BG.
  split; [reflexivity|]. split; [reflexivity|]. split; [reflexivity|].
  split; [reflexivity|]. split; [reflexivity|]. split; [reflexivity|].
  split; [|split; [reflexivity|]].
  - rewrite U7, U1, W, X, P in SP. exact SP.
  - intro HP. assert (HP1 : persisted s1).
    { unfold persisted in *. unfold s1, update_physics.
      repeat match goal with |- context [if ?c then _ else _] => destruct c end; exact HP. }
    specialize (U9 HP1). unfold persisted in *. rewrite SS, SBe, SWr. exact U9.
Qed.

Lemma js_rem_range (x : Q) (w : positive) :
  (0 <= x)%Q -> (0 <= js_rem x w < inject_Z (Zpos w))%Q.
Proof.
  intro Hx. unfold js_rem.
  set (W := inject_Z (Zpos w)).
  assert (HW : (0 < W)%Q) by (unfold W, Qlt; simpl; lia).
  set (r := (x / W)%Q).
  assert (Hr : (0 <= r)%Q).
  { unfold r. apply Qle_shift_div_l; [exact HW|]. rewrite Qmult_0_l. exact Hx. }
  assert (Hxr : (x == r * W)%Q).
  { unfold r. field. intro E. unfold W, Qeq in E. simpl in E. lia. }
  clearbody r. destruct r as [rn rd]. simpl.
  set (k := Z.quot rn (Zpos rd)).
  assert (Hn : 0 <= Qnum (rn # rd)) by (unfold Qle in Hr; simpl in Hr |- *; lia).
  assert (Hk : k = rn / Zpos rd) by (apply Z.quot_div_nonneg; simpl in Hn; lia).
  pose proof (Z.div_mod rn (Zpos rd) ltac:(lia)) as Dm.
  pose proof (Z.mod_pos_bound rn (Zpos rd) ltac:(lia)) as Mb.
  clearbody k. set (r := (rn # rd)%Q) in *.
  assert (K1 : (inject_Z k <= r)%Q).
  { unfold Qle; simpl. rewrite Hk. nia. }
  assert (K2 : (r < inject_Z k + 1)%Q).
  { unfold Qlt; simpl. rewrite Hk. nia. }
  assert (P1 : (0 <= (r - inject_Z k) * W)%Q) by (apply Qmult_le_0_compat; lra).
  assert (P2 : (0 < (inject_Z k + 1 - r) * W)%Q) by (apply Qmult_lt_0_compat; lra).
  rewrite Hxr. split; lra.
Qed.

Lemma resizeCanvas_eq (iw ih : Z) (c : canvases) :
  resizeCanvas iw ih c =
  mkCanvases (Z.max 320 iw) (Z.min ((3 * Z.max 320 iw) / 2) ih)
             (Z.max 320 iw) (Z.min ((3 * Z.max 320 iw) / 2) ih).
Proof.
  destruct c as [a b x y]. unfold resizeCanvas. cbv zeta.
  set (D := Z.max 320 iw). set (H := Z.min (3 * D / 2) ih). clearbody H D. simpl.
  destruct (a =? D) eqn:E1, (b =? H) eqn:E2; simpl;
    rewrite ?Z.eqb_eq in E1, E2; subst;
    destruct (x =? D) eqn:E3, (y =? H) eqn:E4; simpl;
    rewrite ?Z.eqb_eq in E3, E4; subst; rewrite ?Z.eqb_refl; reflexivity.
Qed.

Lemma update_isRunning (dt : Q) (rnd : Q * Q) (s : state) :
  isRunning (update dt rnd s) = isRunning s.
Proof.
  unfold update. destruct (isGameOver s); [reflexivity|].
  assert (A : isRunning (update_physics s) = isRunning s).
  { unfold update_physics.
    repeat match goal with |- context [if ?c then _ else _] => destruct c end; reflexivity. }
  assert (B : isRunning (update_pipes (update_physics s)) = isRunning (update_physics s)).
  { unfold update_pipes.
    set (s0 := set_backgroundOffset _ (update_physics s)).
    pose proof (pipes_loop_spec (pipes s0) s0) as [_ [PF _]].
    destruct (pipes_loop (pipes s0) s0) as [ps2 s2]. simpl in *.
    destruct PF as [_ [_ [_ [_ [_ [_ [_ [F8 _]]]]]]]]. exact F8. }
  unfold update_spawn. destruct (Qltb _ _); simpl; congruence.
Qed.

Lemma isRunning_step (o : op) (s : state) :
  isRunning (step o s) = isRunning s || is_flap o.
Proof.
  destruct o as [dt rnd|t rnd|t|]; simpl.
  - rewrite update_isRunning. now rewrite orb_false_r.
  - unfold gameLoop. rewrite update_isRunning. simpl. now rewrite orb_false_r.
  - unfold flap. rewrite orb_true_r.
    destruct (isRunning s) eqn:R; simpl; destruct (isGameOver s); simpl;
      rewrite ?R; reflexivity.
  - now rewrite orb_false_r.
Qed.

Lemma pipes_ok_update (dt : Q) (rnd : Q * Q) (s : state) :
  pipes_ok s -> pipes_ok (update dt rnd s).
Proof.
  intro H. destruct (isGameOver s) eqn:G.
  - unfold update. rewrite G. exact H.
  - destruct (update_running dt rnd s G) as [W [_ [_ [_ [_ [_ [P _]]]]]]].
    assert (M : Forall (fun p => pwidth p = PIPE_WIDTH /\
                  (-80 <= px p <= inject_Z (Zpos (cw s)) + 70)%Q)
                (map (after_tick (mouthX s)) (filter kept (pipes s)))).
    { apply Forall_forall. intros p' Hin.
      apply in_map_iff in Hin. destruct Hin as [p [Ep Hin]]. subst p'.
      apply filter_In in Hin. destruct Hin as [Hin Hk].
      unfold pipes_ok in H. rewrite Forall_forall in H.
      destruct (H p Hin) as [Hw [Hl Hu]].
      destruct p as [x w th g pa]. simpl in *. subst w.
      unfold kept, advance in Hk. simpl in Hk.
      apply negb_true_iff, Qltb_false in Hk.
      unfold SCROLL_SPEED, PIPE_WIDTH in *. split; [reflexivity|]. split; lra. }
    unfold pipes_ok. rewrite W. destruct P as [P | [q [P [Qx Qw]]]]; rewrite P.
    + exact M.
    + apply Forall_app. split; [exact M|]. constructor; [|constructor].
      split; [exact Qw|]. rewrite Qx. unfold PIPE_WIDTH.
      assert (0 < inject_Z (Zpos (cw s)))%Q by (unfold Qlt; simpl; lia). split; lra.
Qed.

Lemma pipes_ok_step (o : op) (s : state) : pipes_ok s -> pipes_ok (step o s).
Proof.
  intro H. destruct o as [dt rnd|t rnd|t|]; simpl.
  - now apply pipes_ok_update.
  - unfold gameLoop. apply pipes_ok_update. exact H.
  - unfold flap, pipes_ok in *.
    destruct (isRunning s); simpl; destruct (isGameOver s); simpl; first [exact H | constructor].
  - unfold pipes_ok. simpl. constructor.
Qed.

Lemma timer_update (dt : Q) (rnd : Q * Q) (s : state) :
  (lastPipeAt s <= PIPE_INTERVAL_MS -> lastPipeAt (update dt rnd s) <= PIPE_INTERVAL_MS)%Q.
Proof.
  intro H. destruct (isGameOver s) eqn:G.
  - unfold update. rewrite G. exact H.
  - destruct (update_running dt rnd s G) as [_ [_ [_ [_ [_ [L _]]]]]].
    rewrite L. destruct (Qltb _ _) eqn:E.
    + unfold PIPE_INTERVAL_MS. lra.
    + apply Qltb_false in E. exact E.
Qed.

Lemma timer_step (o : op) (s : state) :
  (lastPipeAt s <= PIPE_INTERVAL_MS -> lastPipeAt (step o s) <= PIPE_INTERVAL_MS)%Q.
Proof.
  intro H. destruct o as [dt rnd|t rnd|t|]; simpl.
  - now apply timer_update.
  - unfold gameLoop. apply timer_update. exact H.
  - unfold flap. destruct (isRunning s); simpl; destruct (isGameOver s); simpl;
      first [exact H | unfold PIPE_INTERVAL_MS; lra].
  - unfold PIPE_INTERVAL_MS. lra.
Qed.

Lemma bg_update (dt : Q) (rnd : Q * Q) (s : state) :
  (0 <= backgroundOffset s < inject_Z (Zpos (cw s)))%Q ->
  (0 <= backgroundOffset (update dt rnd s) < inject_Z (Zpos (cw (update dt rnd s))))%Q.
Proof.
  intro H. destruct (isGameOver s) eqn:G.
  - unfold update. rewrite G. exact H.
  - destruct (update_running dt rnd s G) as [W [_ [_ [_ [B _]]]]].
    rewrite W, B. apply js_rem_range. unfold SCROLL_SPEED. lra.
Qed.

Lemma bg_step (o : op) (s : state) :
  (0 <= backgroundOffset s < inject_Z (Zpos (cw s)))%Q ->
  (0 <= backgroundOffset (step o s) < inject_Z (Zpos (cw (step o s))))%Q.
Proof.
  intro H. destruct o as [dt rnd|t rnd|t|]; simpl.
  - now apply bg_update.
  - unfold gameLoop. apply bg_update. exact H.
  - unfold flap. destruct (isRunning s); simpl; destruct (isGameOver s); simpl;
      first [exact H | split; [lra | unfold Qlt; simpl; lia]].
  - split; [lra | unfold Qlt; simpl; lia].
Qed.

Lemma persisted_step (o : op) (s : state) : persisted s -> persisted (step o s).
Proof.
  intro H. destruct o as [dt rnd|t rnd|t|]; simpl.
  - destruct (isGameOver s) eqn:G.
    + unfold update. rewrite G. exact H.
    + exact (proj2 (proj2 (proj2 (proj2 (proj2 (proj2 (proj2 (proj2 (update_running dt rnd s G)))))))) H).
  - unfold gameLoop. set (s' := set_lastTimestamp t s).
    assert (H' : persisted s') by exact H.
    destruct (isGameOver s') eqn:G.
    + unfold update. rewrite G. exact H'.
    + exact (proj2 (proj2 (proj2 (proj2 (proj2 (proj2 (proj2 (proj2 (update_running _ rnd s' G)))))))) H').
  - unfold flap, persisted in *. destruct (isRunning s); simpl; destruct (isGameOver s); simpl; exact H.
  - exact H.
Qed.

(** ** The further properties *)

(** X1: [resizeCanvas] gives the game canvas and the landing canvas the
    same size: the width is [max(320, innerWidth)], at least 320; the
    height is at most the window's height and at most 1.5 times the width,
    and exactly [floor(1.5 * width)] when the window is that tall.  A
    second call with the same window changes nothing. *)
Theorem resizeCanvas_fits (iw ih : Z) (c : canvases) :
  let c' := resizeCanvas iw ih c in
  landW c' = gameW c' /\ landH c' = gameH c' /\
  gameW c' = Z.max 320 iw /\ 320 <= gameW c' /\
  gameH c' <= ih /\ 2 * gameH c' <= 3 * gameW c' /\
  ((3 * gameW c') / 2 <= ih -> gameH c' = (3 * gameW c') / 2) /\
  resizeCanvas iw ih c' = c'.
Proof.
  cbv zeta. rewrite !resizeCanvas_eq. cbn [gameW gameH landW landH].
  split; [reflexivity|]. split; [reflexivity|]. split; [reflexivity|].
  pose proof (Z.mul_div_le (3 * Z.max 320 iw) 2 ltac:(lia)).
  split; [lia|]. split; [lia|]. split; [lia|]. split; [lia|reflexivity].
Qed.

(** X2: the background loader retries at most once: after any number of
    [onerror] events [img.src] has been assigned at most twice, and after
    the first error it is the JPG file, which further errors leave alone. *)
Theorem loader_retries_once (n : nat) :
  let l := Nat.iter n loader_onerror loader_start in
  (src_sets l <= 2)%nat /\
  (n <> 0%nat -> src l = "backgroundtexture.jpg"%string /\ triedJpg l = true /\ src_sets l = 2%nat).
Proof.
  assert (E : forall m, Nat.iter (S m) loader_onerror loader_start =
                        {| src := "backgroundtexture.jpg"; triedJpg := true; src_sets := 2 |}).
  { induction m as [|m IH]; [reflexivity|]. simpl in *. rewrite IH. reflexivity. }
  cbv zeta. destruct n as [|m].
  - split; [simpl; lia | intro C; contradiction].
  - rewrite E. simpl. split; [lia|]. intros _. split; [reflexivity|]. split; reflexivity.
Qed.

(** X3: when the canvas is at least 112 high (ground 80 plus mouth 32),
    a tick keeps the mouth between the ceiling and the ground line:
    [0 <= mouthY <= height - 112], for a running game and, once it holds,
    across game over too. *)
Theorem update_mouth_in_bounds (dt : Q) (rnd : Q * Q) (s : state) :
  112 <= ch s ->
  isGameOver s = false \/ (0 <= mouthY s <= inject_Z (ch s) - GROUND_HEIGHT - MOUTH_SIZE)%Q ->
  (0 <= mouthY (update dt rnd s) <= inject_Z (ch s) - GROUND_HEIGHT - MOUTH_SIZE)%Q.
Proof.
  intros Hc Hs.
  assert (HC : (112 <= inject_Z (ch s))%Q) by (unfold Qle; simpl; lia).
  destruct (isGameOver s) eqn:G.
  - unfold update. rewrite G. destruct Hs as [Hs|Hs]; [discriminate | exact Hs].
  - destruct (update_running dt rnd s G) as [_ [_ [_ [Y _]]]]. rewrite Y.
    destruct (update_physics_spec s) as [_ [PY _]]. cbv zeta in PY. rewrite PY.
    unfold GROUND_HEIGHT, MOUTH_SIZE in *.
    destruct (Qltb (mouthY s + (mouthVelY s + GRAVITY)) 0) eqn:E1.
    + destruct (Qltb (inject_Z (ch s) - 80 - 32) 0) eqn:E2.
      * apply Qltb_spec in E2. lra.
      * split; lra.
    + apply Qltb_false in E1.
      destruct (Qltb (inject_Z (ch s) - 80 - 32) _) eqn:E2.
      * split; lra.
      * apply Qltb_false in E2. split; lra.
Qed.

Lemma update_mouth_in_bounds_witness :
  let s := init_state 500 750 None in
  112 <= ch s /\
  (0 <= mouthY (update 16 (0, 0)%Q s) <= inject_Z (ch s) - GROUND_HEIGHT - MOUTH_SIZE)%Q.
Proof.
  intro s. split; [simpl; lia|].
  apply update_mouth_in_bounds; [simpl; lia | left; reflexivity].
Defined.

(** X4: on a canvas lower than 112 the ground line lies above the
    ceiling, so the first tick of a running game ends it, with the mouth
    put at [height - 112], above the top of the canvas. *)
Theorem update_short_canvas_ends (dt : Q) (rnd : Q * Q) (s : state) :
  ch s < 112 -> isGameOver s = false ->
  isGameOver (update dt rnd s) = true /\
  mouthY (update dt rnd s) = (inject_Z (ch s) - GROUND_HEIGHT - MOUTH_SIZE)%Q /\
  (mouthY (update dt rnd s) < 0)%Q.
Proof.
  intros Hc G.
  assert (HC : (inject_Z (ch s) <= 111)%Q) by (unfold Qle; simpl; lia).
  destruct (update_running dt rnd s G) as [_ [_ [_ [Y [_ [_ [_ [O _]]]]]]]].
  destruct (update_physics_spec s) as [_ [PY [PG _]]]. cbv zeta in PY, PG.
  set (y1 := if Qltb (mouthY s + (mouthVelY s + GRAVITY)) 0 then 0%Q
             else (mouthY s + (mouthVelY s + GRAVITY))%Q) in *.
  assert (Hy : (0 <= y1)%Q).
  { unfold y1. destruct (Qltb _ 0) eqn:E; [lra|]. apply Qltb_false in E. exact E. }
  assert (Hg : Qltb (inject_Z (ch s) - GROUND_HEIGHT - MOUTH_SIZE) y1 = true).
  { apply Qltb_spec. unfold GROUND_HEIGHT, MOUTH_SIZE. lra. }
  rewrite Hg in PY, PG. rewrite G in PG. simpl in PG.
  rewrite O, Y, PG, PY. split; [reflexivity|]. split; [reflexivity|].
  unfold GROUND_HEIGHT, MOUTH_SIZE. lra.
Qed.

Lemma update_short_canvas_ends_witness :
  let s := init_state 500 100 None in
  ch s < 112 /\ isGameOver s = false /\ isGameOver (update 16 (0, 0)%Q s) = true.
Proof.
  intro s. split; [simpl; lia|]. split; [reflexivity|].
  apply (update_short_canvas_ends 16 (0, 0)%Q s); [simpl; lia | reflexivity].
Defined.

(** X5: a tick of a running game ends it exactly when the mouth reaches
    the ground line or, at its new position, overlaps the top or the bottom
    teeth of an obstacle that survives the tick (moved by the scroll
    speed); dropped obstacles never end it. *)
Theorem update_game_over_iff (dt : Q) (rnd : Q * Q) (s : state) :
  isGameOver s = false ->
  let y := (mouthY s + (mouthVelY s + GRAVITY))%Q in
  let y1 := if Qltb y 0 then 0%Q else y in
  let groundLimit := (inject_Z (ch s) - GROUND_HEIGHT - MOUTH_SIZE)%Q in
  isGameOver (update dt rnd s) =
    Qltb groundLimit y1 ||
    existsb (fun p => hits (mouthX s) (mouthY (update dt rnd s)) (inject_Z (ch s)) (advance p))
            (filter kept (pipes s)).
Proof.
  intro G. cbv zeta.
  destruct (update_running dt rnd s G) as [_ [_ [_ [Y [_ [_ [_ [O _]]]]]]]].
  destruct (update_physics_spec s) as [_ [_ [PG _]]]. cbv zeta in PG.
  rewrite O, Y, PG, G. reflexivity.
Qed.

Lemma update_game_over_iff_witness :
  let s := set_pipes [mkPipe 100 70 100 150 false] (init_state 500 750 None) in
  isGameOver s = false /\ isGameOver (update 16 (0, 0)%Q s) = true.
Proof.
  intro s. split; [reflexivity|].
  rewrite (update_game_over_iff 16 (0, 0)%Q s eq_refl). vm_compute. reflexivity.
Defined.

(** X6: from the startup state, along any sequence of ticks, frames,
    flaps and resets, every obstacle is 70 wide and its x stays within
    [-80, canvas width + 70]: it is spawned at the right edge plus 70,
    only moves left, and is dropped before its right edge passes -10. *)
Theorem obstacles_in_range (os : list op) (w : positive) (h : Z) (item : option string) :
  pipes_ok (run_ops os (init_state w h item)).
Proof.
  assert (G : forall s, pipes_ok s -> pipes_ok (run_ops os s)).
  { induction os as [|o os IH]; intros s H; simpl; [exact H|].
    apply IH. apply pipes_ok_step. exact H. }
  apply G. unfold pipes_ok. simpl. constructor.
Qed.

(** X7: from the startup state, along any sequence of operations, the
    spawn timer [lastPipeAt] never exceeds [PIPE_INTERVAL_MS]: in a tick of
    a running game the timer grows by [dt], and when it then passes the
    interval the tick appends exactly one new obstacle (x = canvas width
    + 70, not passed) and resets the timer to 0, dropping the excess;
    otherwise nothing is spawned. *)
Theorem spawn_timer_bounded (os : list op) (w : positive) (h : Z) (item : option string) :
  (lastPipeAt (run_ops os (init_state w h item)) <= PIPE_INTERVAL_MS)%Q /\
  (forall dt rnd s, isGameOver s = false ->
     lastPipeAt (update dt rnd s) =
       (if Qltb PIPE_INTERVAL_MS (lastPipeAt s + dt) then 0 else lastPipeAt s + dt)%Q /\
     exists q, px q = (inject_Z (Zpos (cw s)) + PIPE_WIDTH)%Q /\ pwidth q = PIPE_WIDTH /\
       passed q = false /\
       pipes (update dt rnd s) =
         map (after_tick (mouthX s)) (filter kept (pipes s)) ++
         (if Qltb PIPE_INTERVAL_MS (lastPipeAt s + dt) then [q] else [])).
Proof.
  split.
  - assert (G : forall s, (lastPipeAt s <= PIPE_INTERVAL_MS)%Q ->
                          (lastPipeAt (run_ops os s) <= PIPE_INTERVAL_MS)%Q).
    { induction os as [|o os IH]; intros s H; simpl; [exact H|].
      apply IH. apply timer_step. exact H. }
    apply G. simpl. unfold PIPE_INTERVAL_MS. lra.
  - intros dt rnd s H. split.
    + exact (proj1 (proj2 (proj2 (proj2 (proj2 (proj2 (update_running dt rnd s H))))))).
    + exact (update_exact dt rnd s H).
Qed.

(** X8: [gameLoop] clamps the frame time: however long the gap since the
    previous frame, one frame advances the spawn timer by at most 50 ms,
    unless it spawns and resets the timer to 0; it records the frame time
    as [lastTimestamp]. *)
Theorem gameLoop_clamped (timestamp : Q) (rnd : Q * Q) (s : state) :
  (lastPipeAt (gameLoop timestamp rnd s) == 0 \/
   lastPipeAt (gameLoop timestamp rnd s) <= lastPipeAt s + 50)%Q /\
  lastTimestamp (gameLoop timestamp rnd s) = timestamp.
Proof.
  unfold gameLoop.
  set (s' := set_lastTimestamp timestamp s).
  assert (Hd : (Qmin 50 (timestamp - lastTimestamp s) <= 50)%Q) by apply Q.le_min_l.
  split.
  - destruct (isGameOver s') eqn:G.
    + unfold update. rewrite G. right. simpl. lra.
    + destruct (update_running (Qmin 50 (timestamp - lastTimestamp s)) rnd s' G)
        as [_ [_ [_ [_ [_ [L _]]]]]].
      rewrite L. simpl. destruct (Qltb _ _); [left; reflexivity | right; lra].
  - destruct (isGameOver s') eqn:G.
    + unfold update. rewrite G. reflexivity.
    + assert (T : forall dt, lastTimestamp (update dt rnd s') = lastTimestamp s').
      { intro dt. unfold update. rewrite G.
        assert (A : lastTimestamp (update_physics s') = lastTimestamp s').
        { unfold update_physics.
          repeat match goal with |- context [if ?c then _ else _] => destruct c end;
            reflexivity. }
        assert (B : lastTimestamp (update_pipes (update_physics s')) =
                    lastTimestamp (update_physics s')).
        { unfold update_pipes.
          set (s0 := set_backgroundOffset _ (update_physics s')).
          pose proof (pipes_loop_spec (pipes s0) s0) as [_ [PF _]].
          destruct (pipes_loop (pipes s0) s0) as [ps2 s2]. simpl in *.
          destruct PF as [_ [_ [_ [_ [_ [_ [_ [_ [F9 _]]]]]]]]]. exact F9. }
        unfold update_spawn. destruct (Qltb _ _); simpl; rewrite B, A; reflexivity. }
      rewrite T. reflexivity.
Qed.

(** X9: from the startup state, along any sequence of ticks, frames,
    flaps and resets, the background offset stays within [0, canvas
    width): each tick takes [(offset + 2.6) % width] of a non-negative
    number, and restarts set it to 0.  A window resize changes the width
    but not the offset, so with resizes only [0 <= offset] is kept: a
    narrowing resize can leave the offset at or above the new width (400
    after narrowing 500 to 320), and the next tick of a running game puts
    it back into [0, width). *)
Theorem background_offset_in_range (os : list op) (es : list event)
    (w : positive) (h : Z) (item : option string) :
  let s := run_ops os (init_state w h item) in
  (0 <= backgroundOffset s < inject_Z (Zpos (cw s)))%Q /\
  (0 <= backgroundOffset (run_events es (init_state w h item)))%Q /\
  (forall dt rnd s', (0 <= backgroundOffset s')%Q -> isGameOver s' = false ->
     (0 <= backgroundOffset (update dt rnd s') < inject_Z (Zpos (cw (update dt rnd s'))))%Q) /\
  (let s1 := resize_state 320 750 (set_backgroundOffset 400 (init_state 500 750 None)) in
   cw s1 = 320%positive /\ backgroundOffset s1 = 400%Q).
Proof.
  assert (G : forall s, (0 <= backgroundOffset s < inject_Z (Zpos (cw s)))%Q ->
                        (0 <= backgroundOffset (run_ops os s) < inject_Z (Zpos (cw (run_ops os s))))%Q).
  { induction os as [|o os IH]; intros s H; simpl; [exact H|].
    apply IH. apply bg_step. exact H. }
  assert (U : forall dt rnd s', (0 <= backgroundOffset s')%Q -> isGameOver s' = false ->
     (0 <= backgroundOffset (update dt rnd s') < inject_Z (Zpos (cw (update dt rnd s'))))%Q).
  { intros dt rnd s' H0 Gs.
    destruct (update_running dt rnd s' Gs) as [W [_ [_ [_ [B _]]]]].
    rewrite W, B. apply js_rem_range. unfold SCROLL_SPEED. lra. }
  assert (N : forall s, (0 <= backgroundOffset s)%Q ->
                        (0 <= backgroundOffset (run_events es s))%Q).
  { induction es as [|e es IH]; intros s H; simpl; [exact H|].
    apply IH. destruct e as [o|iw ih]; simpl; [|exact H].
    destruct o as [dt rnd|t rnd|t|]; simpl.
    - destruct (isGameOver s) eqn:Gs.
      + unfold update. rewrite Gs. exact H.
      + apply (U dt rnd s H Gs).
    - unfold gameLoop. set (s' := set_lastTimestamp t s).
      destruct (isGameOver s') eqn:Gs.
      + unfold update. rewrite Gs. exact H.
      + apply (U _ rnd s' H Gs).
    - unfold flap. destruct (isRunning s); simpl; destruct (isGameOver s); simpl;
        first [exact H | lra].
    - lra. }
  cbv zeta. split; [|split; [|split]].
  - apply G. simpl. split; [lra | unfold Qlt; simpl; lia].
  - apply N. simpl. lra.
  - exact U.
  - split; reflexivity.
Qed.

(** X10: from the startup state, along any sequence of operations, once
    anything has been written to localStorage, the stored value is
    [String(z)] of the current best score [z], and reading it back as at
    startup ([Number(localStorage.getItem(...) || 0)]) gives [z] again for
    [|z| < 10^21]. *)
Theorem best_persisted_round_trip (os : list op) (w : positive) (h : Z) (item : option string) :
  let s := run_ops os (init_state w h item) in
  writes s = [] \/
  exists z, stored s = Some (js_String_of_Z z) /\ best s = JNum (inject_Z z) /\
    (Z.abs z < 10 ^ 21 -> num_is (read_best (stored s)) (inject_Z z)).
Proof.
  assert (G : forall s, persisted s -> persisted (run_ops os s)).
  { induction os as [|o os IH]; intros s H; simpl; [exact H|].
    apply IH. apply persisted_step. exact H. }
  cbv zeta.
  destruct (G (init_state w h item) (or_introl eq_refl)) as [E | [z [Sz Bz]]].
  - left. exact E.
  - right. exists z. split; [exact Sz|]. split; [exact Bz|].
    intro Hz. rewrite Sz. apply read_best_String. exact Hz.
Qed.

(** X11: a flap replaces the velocity instead of adding to it: a second
    flap while the game runs changes nothing, and after a game over the
    first flap restarts the game (velocity 0, score 0, no obstacles, timer
    and background at 0, mouth at mid-height, game over cleared, best
    kept) and the second one gives the impulse.  A flap always leaves the
    loop running, and it sets [lastTimestamp] only when it starts the
    loop. *)
Theorem flap_twice (t1 t2 : Q) (s : state) :
  flap t2 (flap t1 s) =
    (if isGameOver s then set_mouthVelY FLAP_STRENGTH (flap t1 s) else flap t1 s) /\
  (isGameOver s = true ->
     isGameOver (flap t1 s) = false /\ mouthVelY (flap t1 s) = 0%Q /\ score (flap t1 s) = 0 /\
     pipes (flap t1 s) = [] /\ lastPipeAt (flap t1 s) = 0%Q /\
     backgroundOffset (flap t1 s) = 0%Q /\ mouthY (flap t1 s) = (inject_Z (ch s) / 2)%Q /\
     best (flap t1 s) = best s) /\
  isRunning (flap t1 s) = true /\
  lastTimestamp (flap t1 s) = (if isRunning s then lastTimestamp s else t1).
Proof.
  unfold flap.
  destruct (isRunning s) eqn:R; simpl; destruct (isGameOver s) eqn:G; simpl;
    rewrite ?R, ?G; simpl; rewrite ?R, ?G; simpl;
    (split; [reflexivity|]); (split; [intro C; try discriminate C; repeat split|]);
    split; reflexivity.
Qed.

(** X12: the loop flag [isRunning] is set by the first flap and nothing
    ever clears it: after a sequence of operations it is true exactly when
    it was true before or the sequence contains a flap. *)
Theorem isRunning_run (os : list op) (s : state) :
  isRunning (run_ops os s) = isRunning s || existsb is_flap os.
Proof.
  revert s. induction os as [|o os IH]; intro s; simpl.
  - now rewrite orb_false_r.
  - rewrite IH, isRunning_step. now rewrite orb_assoc.
Qed.
